(** * msm_we._lagtime: history graph of a weighted ensemble run and the
      child-to-ancestor mapping derived from it.

    Shallow embedding of [get_history_graph] and [child_to_parent_mapping]
    (src/msm_we/_lagtime.py), together with the parts of their collaborators
    they rely on: the WESTPA data manager, [networkx.DiGraph],
    [networkx.adjacency_matrix], the operator [**] of a SciPy sparse matrix
    and of a SciPy sparse array, and [scipy.sparse.find]. *)

From stdpp Require Import numbers countable list strings gmap.

Local Open Scope Z_scope.

(** ** Python exceptions and fallible computations *)

(** The exception classes that occur.  [IndexError], [KeyError],
    [ValueError], [NotImplementedError] and [NetworkXError] are the ones the
    code and its libraries raise; [MalformedLineageError] and
    [InvalidLagError] are the two classes named by the specification, which
    no path of the code raises. *)
Inductive exception : Set :=
  | IndexError
  | KeyError
  | ValueError
  | NotImplementedError
  | NetworkXError
  | MalformedLineageError
  | InvalidLagError.

Inductive result (A : Type) : Type :=
  | OK (a : A)
  | Raise (e : exception).
Arguments OK {A} a.
Arguments Raise {A} e.

Global Instance result_bind : MBind result := λ A B k r,
  match r with
  | OK a => k a
  | Raise e => Raise e
  end.
Global Instance result_ret : MRet result := λ A a, OK a.

(** A [for] loop whose body may raise: the first exception leaves the loop. *)
Fixpoint for_each {A S} (body : S → A → result S) (l : list A) (s : S)
  : result S :=
  match l with
  | [] => OK s
  | a :: l' => s' ← body s a ; for_each body l' s'
  end.

(** ** Records handed out by the data manager *)

(** A [Segment] object.  WESTPA's [Segment] defines neither [__eq__] nor
    [__hash__], so a graph node is the object itself; the data manager makes
    one new object per row of an iteration, which the pair
    ([n_iter], [seg_id]) identifies. *)
Record Segment := mkSegment {
  n_iter : Z;
  seg_id : nat;
  parent_id : Z
}.

(** An [InitialState] object, identified by the iteration it was fetched for
    and its position in the fetched list. *)
Record InitialState := mkInitialState {
  istate_iter : Z;
  istate_pos : nat;
  state_id : Z
}.

Inductive node :=
  | SegmentNode (s : Segment)
  | InitialStateNode (st : InitialState).

Global Instance Segment_eq_dec : EqDecision Segment.
Proof. solve_decision. Defined.
Global Instance InitialState_eq_dec : EqDecision InitialState.
Proof. solve_decision. Defined.
Global Instance node_eq_dec : EqDecision node.
Proof. solve_decision. Defined.

Global Instance Segment_countable : Countable Segment.
Proof.
  apply (inj_countable' (λ s, (n_iter s, seg_id s, parent_id s))
                        (λ t, mkSegment t.1.1 t.1.2 t.2)).
  by intros [].
Defined.
Global Instance InitialState_countable : Countable InitialState.
Proof.
  apply (inj_countable' (λ s, (istate_iter s, istate_pos s, state_id s))
                        (λ t, mkInitialState t.1.1 t.1.2 t.2)).
  by intros [].
Defined.
Global Instance node_countable : Countable node.
Proof.
  apply (inj_countable'
    (λ u, match u with SegmentNode s => inl s | InitialStateNode st => inr st end)
    (λ x, match x with inl s => SegmentNode s | inr st => InitialStateNode st end)).
  by intros [].
Defined.

(** ** The data manager *)

(** The part of [WESTDataManager] the builder reads: the current iteration
    and, per iteration, the stored [parent_id] of every segment and the stored
    [state_id] of every initial state, in storage order.  [get_segments] and
    [get_initial_states] make the objects of one iteration from these
    tables. *)
Record WESTDataManager := mkDataManager {
  current_iteration : Z;
  seg_index : Z → list Z;
  istate_index : Z → list Z
}.

Definition get_segments (dm : WESTDataManager) (n : Z) : list Segment :=
  imap (λ i pid, mkSegment n i pid) (seg_index dm n).

Definition get_initial_states (dm : WESTDataManager) (n : Z)
  : list InitialState :=
  imap (λ i sid, mkInitialState n i sid) (istate_index dm n).

(** ** networkx.DiGraph *)

(** Nodes in insertion order (the order [list(G)] and [G.nodes] iterate in)
    and the edges, each stored once. *)
Record DiGraph := mkDiGraph {
  nodes : list node;
  edges : list (node * node)
}.

Definition empty_graph : DiGraph := mkDiGraph [] [].

Definition add_node (g : DiGraph) (u : node) : DiGraph :=
  if decide (u ∈ nodes g) then g
  else mkDiGraph (nodes g ++ [u]) (edges g).

(** [G.add_edge(u, v)]: both end points become nodes if they are not yet,
    [u] first; an edge that exists is not added again. *)
Definition add_edge (g : DiGraph) (u v : node) : DiGraph :=
  let g' := add_node (add_node g u) v in
  if decide ((u, v) ∈ edges g') then g'
  else mkDiGraph (nodes g') (edges g' ++ [(u, v)]).

Definition number_of_nodes (g : DiGraph) : nat := length (nodes g).
Definition number_of_edges (g : DiGraph) : nat := length (edges g).

Definition successors (g : DiGraph) (u : node) : list node :=
  (filter (λ e, e.1 = u) (edges g)).*2.

Definition out_degree (g : DiGraph) (u : node) : nat :=
  length (successors g u).

Definition has_edge (g : DiGraph) (u v : node) : Prop := (u, v) ∈ edges g.

(** ** get_history_graph *)

(** [range(a, b)] *)
Definition range (a b : Z) : list Z := seqZ a (b - a).

(** [{state.state_id: state for state in initial_states}]: a later state
    with the same id replaces an earlier one. *)
Definition states_dict (l : list InitialState) : gmap Z InitialState :=
  foldl (λ m st, <[state_id st := st]> m) ∅ l.

(** Lines 43-47: the parent of [segment], looked up in the segments kept
    from the previous pass of the loop or in the dictionary of initial
    states.  A list index out of range raises [IndexError], a missing
    dictionary key [KeyError]. *)
Definition decode_parent (parent_segments : list Segment)
    (initial_states : gmap Z InitialState) (segment : Segment) : result node :=
  if decide (parent_id segment >= 0) then
    match parent_segments !! Z.to_nat (parent_id segment) with
    | Some p => OK (SegmentNode p)
    | None => Raise IndexError
    end
  else
    let state_id := - (parent_id segment + 1) in
    match initial_states !! state_id with
    | Some st => OK (InitialStateNode st)
    | None => Raise KeyError
    end.

(** Lines 42-48: the inner loop over the segments of one iteration. *)
Definition add_segments (parent_segments : list Segment)
    (initial_states : gmap Z InitialState)
    (history_graph : DiGraph) (segments : list Segment) : result DiGraph :=
  for_each (λ g segment,
      parent ← decode_parent parent_segments initial_states segment ;
      OK (add_edge g (SegmentNode segment) parent))
    segments history_graph.

(** Lines 39-49: one pass of the outer loop; the state is the graph and
    [parent_segments]. *)
Definition iteration_body (dm : WESTDataManager)
    (st : DiGraph * list Segment) (n_iter : Z)
  : result (DiGraph * list Segment) :=
  let segments := get_segments dm n_iter in
  let initial_states := states_dict (get_initial_states dm n_iter) in
  g ← add_segments st.2 initial_states st.1 segments ;
  OK (g, segments).

(** Lines 36-53.  Opening and closing the backing file are left out; an
    exception raised in the loop leaves the function, so that no graph is
    returned. *)
Definition get_history_graph (dm : WESTDataManager) : result DiGraph :=
  st ← for_each (iteration_body dm) (range 1 (current_iteration dm))
                (empty_graph, []) ;
  OK st.1.

(** ** Sparse integer matrices *)

(** A SciPy sparse matrix or sparse array is embedded by the matrix it
    stands for, row by row.  The entries of an adjacency matrix built from
    Python integers are 64-bit signed integers, whose arithmetic wraps
    around. *)
Abbreviation matrix := (list (list Z)).

Definition wrap64 (z : Z) : Z := (z + 2 ^ 63) `mod` 2 ^ 64 - 2 ^ 63.

Definition column (j : nat) (B : matrix) : list Z :=
  (λ row, default 0 (row !! j)) <$> B.

Definition dot (r c : list Z) : Z := foldr Z.add 0 (zip_with Z.mul r c).

(** The entry in row [i] and column [j]; zero outside the matrix. *)
Definition entry (M : matrix) (i j : nat) : Z :=
  default 0 (M !! i ≫= λ row, row !! j).

(** The matrix product [A * B]. *)
Definition mmul (A B : matrix) : matrix :=
  (λ row, (λ j, wrap64 (dot row (column j B))) <$> seq 0 (length B)) <$> A.

(** [scipy.sparse.eye(n)] *)
Definition eye (n : nat) : matrix :=
  (λ i, (λ j, if decide (i = j) then 1 else 0) <$> seq 0 n) <$> seq 0 n.

(** The recursion of [spmatrix.__pow__] for an exponent of at least one:
    [other == 1] returns a copy, otherwise [tmp = self ** (other // 2)] and
    the result is [self * tmp * tmp] for an odd and [tmp * tmp] for an even
    exponent. *)
Fixpoint pow_pos (M : matrix) (other : positive) : matrix :=
  match other with
  | xH => M
  | xO half => let tmp := pow_pos M half in mmul tmp tmp
  | xI half => let tmp := pow_pos M half in mmul (mmul M tmp) tmp
  end.

(** [scipy.sparse.find(M)]: the coordinates and values of the nonzero
    entries, listed here row by row.  (The order matters to the caller only
    when a row has several nonzero entries.) *)
Definition find (M : matrix) : list (nat * nat * Z) :=
  mjoin (imap (λ i row,
    omap id (imap (λ j v, if decide (v = 0) then None else Some (i, j, v)) row))
    M).

(** The class of the object that [networkx.adjacency_matrix] returns.  The
    source does not fix the version of networkx: up to networkx 2.x the
    result is a [scipy.sparse] matrix ([csr_matrix], an [spmatrix]), from
    networkx 3.0 on a sparse array ([csr_array], an [sparray]).  The two
    classes give [**] different meanings. *)
Inductive sparse_kind :=
  | spmatrix
  | sparray.

(** [sparray.power(n)] for a positive [n]: every entry is raised to the
    power [n]. *)
Definition power (M : matrix) (n : Z) : matrix :=
  (λ row : list Z, (λ x, wrap64 (x ^ n)) <$> row) <$> M.

(** [M ** other] on the adjacency matrix, for an exponent that fits 64
    bits.
    - On an [spmatrix] it is the matrix power ([spmatrix.__pow__]): a
      negative exponent raises [ValueError('exponent must be >= 0')],
      exponent zero gives the identity.
    - On an [sparray] it is the element-wise power ([power]): exponent
      zero raises [NotImplementedError] ('zero power is not supported'), and
      a negative exponent makes NumPy raise [ValueError] ('Integers to
      negative integer powers are not allowed') as soon as there is an entry
      to raise. *)
Definition sparse_pow (kind : sparse_kind) (M : matrix) (other : Z)
  : result matrix :=
  match kind with
  | spmatrix =>
    match other with
    | Zneg _ => Raise ValueError
    | Z0 => OK (eye (length M))
    | Zpos p => OK (pow_pos M p)
    end
  | sparray =>
    match other with
    | Z0 => Raise NotImplementedError
    | Zneg _ => match find M with
                | [] => OK M
                | _ :: _ => Raise ValueError
                end
    | Zpos _ => OK (power M other)
    end
  end.

(** [networkx.adjacency_matrix(G)]: rows and columns follow [list(G)], the
    entry of an edge is its weight, 1 when it has none.  A graph without
    nodes raises [NetworkXError('Graph has no nodes or edges')]. *)
Definition edge_matrix (g : DiGraph) : matrix :=
  (λ u, (λ v, if decide ((u, v) ∈ edges g) then 1 else 0) <$> nodes g)
    <$> nodes g.

Definition adjacency_matrix (g : DiGraph) : result matrix :=
  match nodes g with
  | [] => Raise NetworkXError
  | _ => OK (edge_matrix g)
  end.

(** ** child_to_parent_mapping *)

(** The body of the loop of lines 60-61: [mapping[nodes[i]] = nodes[j]]. *)
Definition record_entry (ns : list node) (mapping : gmap node node)
    (t : nat * nat * Z) : result (gmap node node) :=
  let '(i, j, _) := t in
  match ns !! i, ns !! j with
  | Some u, Some v => OK (<[u := v]> mapping)
  | _, _ => Raise IndexError
  end.

(** Lines 56-62, with [kind] the class of sparse object the installed
    networkx hands out.  The graph is only read: the matrix and the node list
    are new values, and the result is the dictionary [mapping]. *)
Definition child_to_parent_mapping (kind : sparse_kind)
    (history_graph : DiGraph) (degree : Z) : result (gmap node node) :=
  A ← adjacency_matrix history_graph ;
  adjacency_matrix ← sparse_pow kind A degree ;
  let nodes := nodes history_graph in
  for_each (record_entry nodes) (find adjacency_matrix) ∅.

(** A call site: [degree] is a keyword parameter with default value 1. *)
Definition call_child_to_parent_mapping (kind : sparse_kind)
    (history_graph : DiGraph) (degree : option Z) : result (gmap node node) :=
  child_to_parent_mapping kind history_graph (default 1 degree).


(** Matrix product and matrix power on unbounded integers. *)
Definition mmul_exact (A B : matrix) : matrix :=
  (λ row, (λ j, dot row (column j B)) <$> seq 0 (length B)) <$> A.

Fixpoint pow_pos_exact (M : matrix) (other : positive) : matrix :=
  match other with
  | xH => M
  | xO half => let tmp := pow_pos_exact M half in mmul_exact tmp tmp
  | xI half =>
    let tmp := pow_pos_exact M half in mmul_exact (mmul_exact M tmp) tmp
  end.

(** * msm_we.westpa_plugins.hamsm_driver: the plugin that builds the haMSM *)

Module Driver.

(** The Python values of a plugin configuration that are modelled: [None],
    booleans, integers, strings and dictionaries with string keys. *)
#[local] Unset Elimination Schemes.
Inductive pyvalue :=
  | PyNone
  | PyBool (b : bool)
  | PyInt (z : Z)
  | PyStr (s : string)
  | PyDict (d : gmap string pyvalue).
#[local] Set Elimination Schemes.

Inductive exception :=
  | AssertionError
  | TypeError
  | ValueError
  | External (what : string).

Inductive outcome (A : Type) : Type :=
  | Done (a : A)
  | Raised (e : exception).
Arguments Done {A} a.
Arguments Raised {A} e.

(** [d.get(key, default)] *)
Definition get (d : gmap string pyvalue) (key : string) (dflt : pyvalue)
  : pyvalue :=
  default dflt (d !! key).

(** [d.update(other)]: the entries of a dictionary replace those of [d] with
    the same key.  A value that cannot be iterated raises [TypeError]; a
    string is iterated character by character, which adds nothing when the
    string is empty and raises [ValueError] otherwise. *)
Definition update (d : gmap string pyvalue) (other : pyvalue)
  : outcome (gmap string pyvalue) :=
  match other with
  | PyDict o => Done (o ∪ d)
  | PyStr s => if decide (s = "") then Done d else Raised ValueError
  | PyNone | PyBool _ | PyInt _ => Raised TypeError
  end.

Definition is_not_None (v : pyvalue) : bool :=
  match v with
  | PyNone => false
  | _ => true
  end.

(** The attributes [__init__] sets on a master process. *)
Record HAMSMDriver := mkDriver {
  plugin_config : gmap string pyvalue;
  priority : pyvalue;
  h5file_paths : list string;
  dimreduce_use_weights : pyvalue;
  dimreduce_var_cutoff : pyvalue;
  cross_validation_groups : pyvalue;
  ray_address : pyvalue;
  ray_kwargs : pyvalue
}.

(** A request made to [sim_manager.register_callback]: the hook, the method
    to call and the priority. *)
Record callback := mkCallback {
  hook : string;
  method : string;
  callback_priority : pyvalue
}.

(** Lines 32-81.  [n_threads] is the value of
    [_openmp_effective_n_threads()], [is_master] that of
    [sim_manager.work_manager.is_master], [we_h5filename] the file name held
    by the data manager, [callbacks] the requests made so far.  Status
    messages are left out.  The result is the list of requests and the
    attributes of the new object, if any were set. *)
Definition init (n_threads : Z) (is_master : bool) (we_h5filename : string)
    (plugin_config : gmap string pyvalue) (callbacks : list callback)
  : outcome (option HAMSMDriver * list callback) :=
  if decide (n_threads = 1) then
    if negb is_master then Done (None, callbacks)
    else
      let priority := get plugin_config "priority" (PyInt 2) in
      let callbacks :=
        callbacks ++ [mkCallback "finalize_run" "construct_hamsm" priority] in
      Done (Some {|
        plugin_config := plugin_config;
        priority := priority;
        h5file_paths := [we_h5filename];
        dimreduce_use_weights :=
          get plugin_config "dimreduce_use_weights" (PyBool true);
        dimreduce_var_cutoff := get plugin_config "dimreduce_var_cutoff" PyNone;
        cross_validation_groups :=
          get plugin_config "cross_validation_groups" (PyInt 2);
        ray_address := get plugin_config "ray_address" PyNone;
        ray_kwargs := get plugin_config "ray_kwargs" (PyDict ∅)
      |}, callbacks)
  else Raised AssertionError.

(** Lines 108-112: the keyword arguments for Ray. *)
Definition ray_kwargs_of (self : HAMSMDriver)
  : outcome (gmap string pyvalue) :=
  let ray_kwargs0 : gmap string pyvalue :=
    {[ "num_cpus" := get (plugin_config self) "num_cpus" PyNone ]} in
  match update ray_kwargs0 (ray_kwargs self) with
  | Raised e => Raised e
  | Done ray_kwargs1 =>
    if is_not_None (ray_address self)
    then update ray_kwargs1 (PyDict {[ "address" := ray_address self ]})
    else Done ray_kwargs1
  end.

(** The arguments of the call of [build_analyze_model], lines 115-132. *)
Record build_args := mkBuildArgs {
  file_paths : list string;
  ref_struct : pyvalue;
  modelName : pyvalue;
  basis_pcoord_bounds : pyvalue;
  target_pcoord_bounds : pyvalue;
  dimreduce_method : pyvalue;
  n_clusters : pyvalue;
  tau : pyvalue;
  ray_kwargs_arg : gmap string pyvalue;
  step_use_weights : pyvalue;
  step_variance_cutoff : pyvalue;
  fluxmatrix_iters : list Z;
  allow_validation_failure : bool;
  cross_validation_groups_arg : pyvalue
}.

Definition build_args_of (self : HAMSMDriver)
    (ray_kwargs : gmap string pyvalue) : build_args :=
  let cfg := plugin_config self in {|
    file_paths := h5file_paths self;
    ref_struct := get cfg "ref_pdb_file" PyNone;
    modelName := get cfg "model_name" PyNone;
    basis_pcoord_bounds := get cfg "basis_pcoord_bounds" PyNone;
    target_pcoord_bounds := get cfg "target_pcoord_bounds" PyNone;
    dimreduce_method := get cfg "dimreduce_method" PyNone;
    n_clusters := get cfg "n_clusters" PyNone;
    tau := get cfg "tau" PyNone;
    ray_kwargs_arg := ray_kwargs;
    step_use_weights := dimreduce_use_weights self;
    step_variance_cutoff := dimreduce_var_cutoff self;
    fluxmatrix_iters := [1; -1];
    allow_validation_failure := true;
    cross_validation_groups_arg := cross_validation_groups self
  |}.

Section construct.
Context {featurizer model : Type}.

(** [extloader.get_object] and the construction of the model by
    [msm_we.modelWE().build_analyze_model], which belong to other modules:
    each returns its result or raises. *)
Variable get_object : pyvalue → outcome featurizer.
Variable build_analyze_model : build_args → outcome model.

(** What [construct_hamsm] writes: the model and the featurizer stored on
    the data manager, the featurizer stored on the class [modelWE], and
    whether the data manager's backing file is open. *)
Record world := mkWorld {
  hamsm_model : option model;
  processCoordinates : option featurizer;
  modelWE_processCoordinates : option featurizer;
  backing_open : bool
}.

(** Lines 83-137; status messages are left out.  An exception leaves the
    method at the statement that raised it, with the writes made so far. *)
Definition construct_hamsm (self : HAMSMDriver) (w : world)
  : outcome model * world :=
  let w1 := mkWorld None (processCoordinates w)
                    (modelWE_processCoordinates w) (backing_open w) in
  let featurization_module := get (plugin_config self) "featurization" PyNone in
  match get_object featurization_module with
  | Raised e => (Raised e, w1)
  | Done featurizer =>
    let w2 := mkWorld None (Some featurizer) (Some featurizer) false in
    match ray_kwargs_of self with
    | Raised e => (Raised e, w2)
    | Done ray_kwargs =>
      match build_analyze_model (build_args_of self ray_kwargs) with
      | Raised e => (Raised e, w2)
      | Done model =>
        (Done model, mkWorld (Some model) (Some featurizer) (Some featurizer)
                             false)
      end
    end
  end.
End construct.

(** A configuration in which the Ray options compete: an address and a
    number of CPUs are given both directly and inside [ray_kwargs], and the
    number of CPUs also under the key [n_cpus]. *)
Definition example_config : gmap string pyvalue :=
  {[ "ray_address" := PyStr "auto";
     "num_cpus" := PyInt 8;
     "n_cpus" := PyInt 16;
     "ray_kwargs" :=
       PyDict {[ "address" := PyStr "10.0.0.1:6379"; "num_cpus" := PyInt 4 ]} ]}.

(** A configuration whose [ray_kwargs] is present but [None]. *)
Definition example_config_None : gmap string pyvalue :=
  {[ "ray_kwargs" := PyNone ]}.

(** The object [__init__] makes on a master process. *)
Definition object_of (h5 : string) (cfg : gmap string pyvalue) : HAMSMDriver :=
  {| plugin_config := cfg;
     priority := get cfg "priority" (PyInt 2);
     h5file_paths := [h5];
     dimreduce_use_weights := get cfg "dimreduce_use_weights" (PyBool true);
     dimreduce_var_cutoff := get cfg "dimreduce_var_cutoff" PyNone;
     cross_validation_groups := get cfg "cross_validation_groups" (PyInt 2);
     ray_address := get cfg "ray_address" PyNone;
     ray_kwargs := get cfg "ray_kwargs" (PyDict ∅) |}.

(** The keys of the plugin configuration that the two methods read. *)
Definition keys_read : list string :=
  [ "priority"; "dimreduce_use_weights"; "dimreduce_var_cutoff";
    "cross_validation_groups"; "ray_address"; "ray_kwargs";
    "ref_pdb_file"; "model_name"; "n_clusters"; "target_pcoord_bounds";
    "basis_pcoord_bounds"; "dimreduce_method"; "tau"; "featurization";
    "num_cpus" ].

End Driver.

(** ** Notions used to state the properties *)

(** What holds of every graph that [add_edge] alone has built. *)
Record graph_wf (g : DiGraph) : Prop := {
  wf_nodes : NoDup (nodes g);
  wf_edges : NoDup (edges g);
  wf_endpoints : ∀ u, u ∈ nodes g ↔ ∃ v, has_edge g u v ∨ has_edge g v u
}.

(** The value of [parent_segments] when the outer loop reaches iteration
    [n]: empty on the first pass, afterwards the segments of [n - 1]. *)
Definition prev_segments (dm : WESTDataManager) (n : Z) : list Segment :=
  if decide (n <= 1) then [] else get_segments dm (n - 1).

(** The parent the loop decodes for a segment of iteration [n_iter s]. *)
Definition parent_of (dm : WESTDataManager) (s : Segment) : result node :=
  decode_parent (prev_segments dm (n_iter s))
                (states_dict (get_initial_states dm (n_iter s))) s.

(** The segments the outer loop visits. *)
Definition processed (dm : WESTDataManager) (s : Segment) : Prop :=
  1 <= n_iter s < current_iteration dm ∧ s ∈ get_segments dm (n_iter s).

(** A path of exactly [n] edges. *)
Inductive path (g : DiGraph) : nat → node → node → Prop :=
  | path_nil u : path g 0 u u
  | path_cons n u w v : has_edge g u w → path g n w v → path g (S n) u v.

(** The first successor of a node, if it has one. *)
Definition parent_in (g : DiGraph) (u : node) : option node :=
  head (successors g u).

Definition functional (g : DiGraph) : Prop :=
  ∀ u v1 v2, has_edge g u v1 → has_edge g u v2 → v1 = v2.

(** The 0/1 matrix of a partial function [f] on the nodes [ns]: row [u] has
    a one in column [f u], if there is one. *)
Definition fun_matrix (ns : list node) (f : node → option node) : matrix :=
  (λ u, (λ v, if decide (f u = Some v) then 1 else 0) <$> ns) <$> ns.

Definition closed_on (ns : list node) (f : node → option node) : Prop :=
  ∀ u v, u ∈ ns → f u = Some v → v ∈ ns.

(** [ancestor f n u]: follow [f] from [u] exactly [n] times. *)
Fixpoint ancestor (f : node → option node) (n : nat) (u : node)
  : option node :=
  match n with
  | O => Some u
  | S n' => f u ≫= ancestor f n'
  end.

(** Every segment the outer loop visits, in the order of the visits. *)
Definition all_segments (dm : WESTDataManager) : list Segment :=
  range 1 (current_iteration dm) ≫= get_segments dm.

(** A parent reference that the stored tables can answer: an index into the
    segments of the iteration before, which exists from iteration 2 on, or
    the id of an initial state stored for the segment's iteration. *)
Definition resolvable (dm : WESTDataManager) (s : Segment) : Prop :=
  (0 <= parent_id s ∧ 2 <= n_iter s ∧
   (Z.to_nat (parent_id s) < length (seg_index dm (n_iter s - 1)))%nat) ∨
  (parent_id s < 0 ∧ - (parent_id s + 1) ∈ istate_index dm (n_iter s)).

(** [s1] is visited before [s2]. *)
Definition visited_before (s1 s2 : Segment) : Prop :=
  n_iter s1 < n_iter s2 ∨ (n_iter s1 = n_iter s2 ∧ (seg_id s1 < seg_id s2)%nat).

(** ** Scenarios *)

Definition dm_of (cur : Z) (segs ists : list (list Z)) : WESTDataManager :=
  mkDataManager cur
    (λ n, if decide (1 <= n) then default [] (segs !! Z.to_nat (n - 1)) else [])
    (λ n, if decide (1 <= n) then default [] (ists !! Z.to_nat (n - 1)) else []).

Definition scenario_A : WESTDataManager :=
  dm_of 4 [[-1; -2]; [0; 1]; [0]] [[0; 1]; [0; 1]; [0; 1]].

Definition scenario_B : WESTDataManager :=
  dm_of 3 [[-1; -1; -1]; [5]] [[0]; [0]].

(** Scenario D: no completed iteration. *)
Definition scenario_D : WESTDataManager := dm_of 1 [] [].

(** Two iterations whose initial states differ: the segment of iteration 2
    starts from an initial state. *)
Definition scenario_E : WESTDataManager :=
  dm_of 3 [[-1]; [-1]] [[0]; [0]].

(** One iteration in which two stored initial states carry the same id. *)
Definition scenario_F : WESTDataManager := dm_of 2 [[-1]] [[0; 0]].

(** The graph of a data manager whose history can be built. *)
Definition built_graph (dm : WESTDataManager) : DiGraph :=
  match get_history_graph dm with
  | OK g => g
  | Raise _ => empty_graph
  end.

(** The mapping of a call that returns. *)
Definition returned (r : result (gmap node node)) : gmap node node :=
  match r with
  | OK m => m
  | Raise _ => ∅
  end.

Definition is_OK {A} (r : result A) : bool :=
  match r with
  | OK _ => true
  | Raise _ => false
  end.

(** * Properties *)

Lemma is_OK_returned r : is_OK r = true → r = OK (returned r).
Proof. by destruct r. Qed.

Lemma is_OK_built_graph dm :
  is_OK (get_history_graph dm) = true →
  get_history_graph dm = OK (built_graph dm).
Proof. unfold built_graph. by destruct (get_history_graph dm). Qed.


Lemma Raise_not_OK {A} (r : result A) a e : r = Raise e → r ≠ OK a.
Proof. by intros ->. Qed.

(** ** Fallible loops *)

Lemma bind_OK {A B} (r : result A) (k : A → result B) b :
  (a ← r; k a) = OK b ↔ ∃ a, r = OK a ∧ k a = OK b.
Proof.
  destruct r as [a|e]; unfold mbind, result_bind.
  - split.
    + intros H. by exists a.
    + by intros (a' & [= <-] & ?).
  - split; [done|]. by intros (a' & ? & ?).
Qed.

Lemma bind_Raise {A B} (r : result A) (k : A → result B) e :
  (a ← r; k a) = Raise e ↔ r = Raise e ∨ ∃ a, r = OK a ∧ k a = Raise e.
Proof.
  destruct r as [a|e']; unfold mbind, result_bind.
  - split.
    + intros H. right. by exists a.
    + intros [?|(a' & [= <-] & ?)]; done.
  - split.
    + intros [= ->]. by left.
    + intros [[= ->]|(a' & ? & ?)]; done.
Qed.

Lemma for_each_app {A S} (body : S → A → result S) l1 l2 s :
  for_each body (l1 ++ l2) s = (s' ← for_each body l1 s; for_each body l2 s').
Proof.
  revert s. induction l1 as [|a l1 IH]; intros s; simpl; [done|].
  destruct (body s a); unfold mbind, result_bind; auto.
Qed.

(** ** Graph updates *)

Lemma edges_add_node g u : edges (add_node g u) = edges g.
Proof. unfold add_node. by case_decide. Qed.

Lemma elem_of_nodes_add_node g u w :
  w ∈ nodes (add_node g u) ↔ w ∈ nodes g ∨ w = u.
Proof.
  unfold add_node. case_decide; simpl.
  - split; [by left|]. by intros [?| ->].
  - rewrite elem_of_app, list_elem_of_singleton. done.
Qed.

Lemma NoDup_nodes_add_node g u : NoDup (nodes g) → NoDup (nodes (add_node g u)).
Proof.
  intros Hnd. unfold add_node. case_decide; simpl; [done|].
  apply NoDup_app. split_and!; [done| |apply NoDup_singleton].
  intros x Hx ->%list_elem_of_singleton. done.
Qed.

Lemma elem_of_edges_add_edge g u v e :
  e ∈ edges (add_edge g u v) ↔ e ∈ edges g ∨ e = (u, v).
Proof.
  unfold add_edge. case_decide as Hin; simpl;
    rewrite ?elem_of_app, ?list_elem_of_singleton, !edges_add_node in *.
  - split; [by left|]. by intros [?| ->].
  - done.
Qed.

Lemma elem_of_nodes_add_edge g u v w :
  w ∈ nodes (add_edge g u v) ↔ w ∈ nodes g ∨ w = u ∨ w = v.
Proof.
  unfold add_edge. case_decide; simpl;
    rewrite !elem_of_nodes_add_node; tauto.
Qed.

Lemma NoDup_nodes_add_edge g u v :
  NoDup (nodes g) → NoDup (nodes (add_edge g u v)).
Proof.
  intros Hnd. unfold add_edge.
  case_decide; simpl; by do 2 apply NoDup_nodes_add_node.
Qed.

Lemma NoDup_edges_add_edge g u v :
  NoDup (edges g) → NoDup (edges (add_edge g u v)).
Proof.
  intros Hnd. unfold add_edge.
  case_decide as Hin; simpl; rewrite !edges_add_node in *; [done|].
  apply NoDup_app. split_and!; [done| |apply NoDup_singleton].
  intros x Hx ->%list_elem_of_singleton. done.
Qed.

Lemma graph_wf_empty : graph_wf empty_graph.
Proof.
  split; simpl; try apply NoDup_nil_2.
  intros u. unfold has_edge. simpl. split.
  - by intros ?%elem_of_nil.
  - intros (v & [?%elem_of_nil|?%elem_of_nil]); done.
Qed.

Lemma graph_wf_add_edge g u v : graph_wf g → graph_wf (add_edge g u v).
Proof.
  intros [Hn He Hend]. split.
  - by apply NoDup_nodes_add_edge.
  - by apply NoDup_edges_add_edge.
  - intros w. unfold has_edge in *. rewrite elem_of_nodes_add_edge, Hend.
    setoid_rewrite elem_of_edges_add_edge. split.
    + intros [(x & [?|?])|[->| ->]]; eauto 6.
    + intros (x & [[?|[= -> ->]]|[?|[= -> ->]]]); eauto 6.
Qed.

(** ** The records of one iteration *)

Lemma lookup_get_segments dm n i :
  get_segments dm n !! i = mkSegment n i <$> seg_index dm n !! i.
Proof. unfold get_segments. by rewrite list_lookup_imap. Qed.

Lemma elem_of_get_segments dm n s :
  s ∈ get_segments dm n ↔
  n_iter s = n ∧ seg_index dm n !! seg_id s = Some (parent_id s).
Proof.
  rewrite list_elem_of_lookup. setoid_rewrite lookup_get_segments. split.
  - intros (i & Hi). destruct (seg_index dm n !! i) eqn:E; simplify_eq/=.
    done.
  - intros (<- & Hi). exists (seg_id s). rewrite Hi. by destruct s.
Qed.

(** ** What the builder computes *)

Lemma decode_parent_Raise ps ist s e :
  decode_parent ps ist s = Raise e → e = IndexError ∨ e = KeyError.
Proof.
  unfold decode_parent. case_decide.
  - destruct (ps !! _); intros [= <-]; by left.
  - destruct (ist !! _); intros [= <-]; by right.
Qed.

Lemma add_segments_cons ps ist g s segs :
  add_segments ps ist g (s :: segs) =
  (parent ← decode_parent ps ist s;
   add_segments ps ist (add_edge g (SegmentNode s) parent) segs).
Proof.
  unfold add_segments. simpl. by destruct (decode_parent ps ist s).
Qed.

Lemma add_segments_OK ps ist segs : ∀ g g',
  add_segments ps ist g segs = OK g' →
  (∀ s, s ∈ segs → ∃ p, decode_parent ps ist s = OK p) ∧
  (∀ u v, has_edge g' u v ↔
     has_edge g u v ∨
     ∃ s, s ∈ segs ∧ u = SegmentNode s ∧ decode_parent ps ist s = OK v) ∧
  (graph_wf g → graph_wf g').
Proof.
  induction segs as [|s segs IH]; intros g g'.
  - intros [= <-]. split_and!; [|intros u v; split|done].
    + by intros s ?%elem_of_nil.
    + by left.
    + intros [?|(s & ?%elem_of_nil & _)]; done.
  - rewrite add_segments_cons, bind_OK. intros (p & Hp & Hrest).
    destruct (IH _ _ Hrest) as (Hall & Hedges & Hwf). split_and!.
    + intros s' [->|?]%elem_of_cons; eauto.
    + intros u v. rewrite Hedges. unfold has_edge.
      rewrite elem_of_edges_add_edge. setoid_rewrite elem_of_cons. split.
      * intros [[?|[= -> ->]]|(s' & ? & ? & ?)]; [by left|right..].
        -- exists s. eauto.
        -- exists s'. eauto.
      * intros [?|(s' & [->|?] & -> & Hs')]; [by left; left| |].
        -- left; right. congruence.
        -- right. exists s'. eauto.
    + intros Hg. by apply Hwf, graph_wf_add_edge.
Qed.

Lemma add_segments_Raise ps ist segs : ∀ g e,
  add_segments ps ist g segs = Raise e →
  ∃ s, s ∈ segs ∧ decode_parent ps ist s = Raise e.
Proof.
  induction segs as [|s segs IH]; intros g e; [done|].
  rewrite add_segments_cons, bind_Raise.
  intros [?|(p & Hp & (s' & ? & ?)%IH)].
  - exists s. split; [left|done].
  - exists s'. split; [by right|done].
Qed.

Lemma prev_segments_succ dm a :
  1 <= a → get_segments dm a = prev_segments dm (Z.succ a).
Proof.
  intros Ha. unfold prev_segments. case_decide; [lia|].
  f_equal. lia.
Qed.

Lemma iterations_OK dm len : ∀ a g r,
  1 <= a →
  for_each (iteration_body dm) (seqZ a (Z.of_nat len))
           (g, prev_segments dm a) = OK r →
  (∀ s, a <= n_iter s < a + Z.of_nat len → s ∈ get_segments dm (n_iter s) →
        ∃ p, parent_of dm s = OK p) ∧
  (∀ u v, has_edge r.1 u v ↔
     has_edge g u v ∨
     ∃ s, a <= n_iter s < a + Z.of_nat len ∧ s ∈ get_segments dm (n_iter s) ∧
          u = SegmentNode s ∧ parent_of dm s = OK v) ∧
  (graph_wf g → graph_wf r.1).
Proof.
  induction len as [|len IH]; intros a g r Ha.
  - intros [= <-]. simpl. split_and!; [|intros u v; split|done].
    + intros s ?. lia.
    + by left.
    + intros [?|(s & ? & _)]; [done|lia].
  - rewrite seqZ_cons by lia. simpl for_each. rewrite bind_OK.
    intros ([g1 ps1] & Hbody & Hrest).
    unfold iteration_body in Hbody. simpl in Hbody.
    apply bind_OK in Hbody as (g1' & Hinner & [= <- <-]).
    rewrite prev_segments_succ in Hrest by done.
    replace (Z.pred (Z.of_nat (S len))) with (Z.of_nat len) in Hrest by lia.
    apply IH in Hrest as (Hall & Hedges & Hwf); [|lia].
    apply add_segments_OK in Hinner as (Hall1 & Hedges1 & Hwf1).
    split_and!.
    + intros s Hs Hin. destruct (decide (n_iter s = a)) as [Heq|Hne].
      * unfold parent_of. rewrite Heq in *. by apply Hall1.
      * apply Hall; [lia|done].
    + intros u v. rewrite Hedges, Hedges1. split.
      * intros [[?|(s & Hin & -> & Hs)]|(s & ? & ? & ? & ?)]; [by left|right..].
        -- exists s. pose proof Hin as [Hn _]%elem_of_get_segments.
           unfold parent_of. rewrite Hn. split_and!; [lia..|done|done|done].
        -- exists s. split_and!; [lia..|done|done|done].
      * intros [?|(s & Hs & Hin & -> & Hp)]; [by left; left|].
        destruct (decide (n_iter s = a)) as [Heq|Hne].
        -- left; right. exists s. unfold parent_of in Hp.
           rewrite Heq in *. done.
        -- right. exists s. split_and!; [lia..|done|done|done].
    + intros Hg. by apply Hwf, Hwf1.
Qed.

Lemma iterations_Raise dm len : ∀ a g e,
  1 <= a →
  for_each (iteration_body dm) (seqZ a (Z.of_nat len))
           (g, prev_segments dm a) = Raise e →
  ∃ s, a <= n_iter s < a + Z.of_nat len ∧ s ∈ get_segments dm (n_iter s) ∧
       parent_of dm s = Raise e.
Proof.
  induction len as [|len IH]; intros a g e Ha; [done|].
  rewrite seqZ_cons by lia. simpl for_each. rewrite bind_Raise.
  intros [Hbody|([g1 ps1] & Hbody & Hrest)];
    unfold iteration_body in Hbody; simpl in Hbody.
  - apply bind_Raise in Hbody as [Hinner|(? & _ & ?)]; [|done].
    apply add_segments_Raise in Hinner as (s & Hin & Hs).
    pose proof Hin as [Hn _]%elem_of_get_segments.
    exists s. unfold parent_of. rewrite Hn. split_and!; [lia..|done|done].
  - apply bind_OK in Hbody as (g1' & Hinner & [= <- <-]).
    rewrite prev_segments_succ in Hrest by done.
    replace (Z.pred (Z.of_nat (S len))) with (Z.of_nat len) in Hrest by lia.
    apply IH in Hrest as (s & ? & ? & ?); [|lia].
    exists s. split_and!; [lia..|done|done].
Qed.

Lemma range_seqZ cur : range 1 cur = seqZ 1 (Z.of_nat (Z.to_nat (cur - 1))).
Proof. unfold range, seqZ. by rewrite Nat2Z.id. Qed.

Lemma get_history_graph_OK dm g :
  get_history_graph dm = OK g →
  graph_wf g ∧
  (∀ s, processed dm s → ∃ p, parent_of dm s = OK p) ∧
  (∀ u v, has_edge g u v ↔
     ∃ s, processed dm s ∧ u = SegmentNode s ∧ parent_of dm s = OK v).
Proof.
  unfold get_history_graph. rewrite bind_OK, range_seqZ.
  intros (r & Hr & [= <-]).
  apply (iterations_OK dm _ 1 empty_graph) in Hr as (Hall & Hedges & Hwf);
    [|done]. unfold processed. split_and!.
  - apply Hwf, graph_wf_empty.
  - intros s [? ?]. apply Hall; [lia|done].
  - intros u v. rewrite Hedges. split.
    + intros [?%elem_of_nil|(s & ? & ? & ? & ?)]; [done|].
      exists s. split_and!; [lia..|done|done|done].
    + intros (s & [? ?] & ? & ?). right.
      exists s. split_and!; [lia..|done|done|done].
Qed.

Lemma get_history_graph_Raise dm e :
  get_history_graph dm = Raise e →
  ∃ s, processed dm s ∧ parent_of dm s = Raise e.
Proof.
  unfold get_history_graph. rewrite bind_Raise, range_seqZ.
  intros [Hr|(? & _ & ?)]; [|done].
  apply (iterations_Raise dm _ 1 empty_graph) in Hr as (s & ? & ? & ?);
    [|done].
  exists s. unfold processed. split_and!; [lia..|done|done].
Qed.

(** The dictionary of initial states holds, under each id, a state of the
    list that carries this id. *)
Lemma states_dict_lookup l k st :
  states_dict l !! k = Some st → st ∈ l ∧ state_id st = k.
Proof.
  unfold states_dict. induction l as [|x l IH] using rev_ind.
  - simpl. by rewrite lookup_empty.
  - rewrite foldl_app. simpl. rewrite lookup_insert.
    case_decide as Hk.
    + intros [= <-]. split; [|done]. apply elem_of_app. right. by left.
    + intros [? ?]%IH. split; [|done]. apply elem_of_app. by left.
Qed.

Lemma states_dict_lookup_None l k :
  states_dict l !! k = None ↔ ∀ st, st ∈ l → state_id st ≠ k.
Proof.
  unfold states_dict. induction l as [|x l IH] using rev_ind.
  - simpl. rewrite lookup_empty. split; [|done]. by intros _ st ?%elem_of_nil.
  - rewrite foldl_app. simpl. rewrite lookup_insert.
    setoid_rewrite elem_of_app. setoid_rewrite list_elem_of_singleton.
    case_decide as Hk.
    + split; [done|]. intros H. destruct (H x); auto.
    + rewrite IH. split.
      * intros H st [?| ->]; auto.
      * intros H st ?. apply H. by left.
Qed.

Lemma NoDup_all_eq {A} (l : list A) x :
  NoDup l → x ∈ l → (∀ y, y ∈ l → y = x) → l = [x].
Proof.
  intros Hnd Hin Hall. destruct l as [|a l]; [by apply elem_of_nil in Hin|].
  rewrite (Hall a) in * by left. f_equal.
  destruct l as [|b l]; [done|].
  apply NoDup_cons in Hnd as [Hnotin _].
  destruct Hnotin. rewrite (Hall b); [left|right; left].
Qed.

(** ** Shape of a built graph *)

Section built.
Context (dm : WESTDataManager) (g : DiGraph).
Hypothesis Hbuilt : get_history_graph dm = OK g.

Lemma built_wf : graph_wf g.
Proof. apply (get_history_graph_OK _ _ Hbuilt). Qed.

Lemma built_edge u v :
  has_edge g u v ↔
  ∃ s, processed dm s ∧ u = SegmentNode s ∧ parent_of dm s = OK v.
Proof. apply (get_history_graph_OK _ _ Hbuilt). Qed.

Lemma built_parent s : processed dm s → ∃ p, parent_of dm s = OK p.
Proof. apply (get_history_graph_OK _ _ Hbuilt). Qed.

Lemma built_functional u v1 v2 :
  has_edge g u v1 → has_edge g u v2 → v1 = v2.
Proof.
  rewrite !built_edge.
  intros (s1 & _ & -> & H1) (s2 & _ & [= <-] & H2). congruence.
Qed.

Lemma built_parent_processed s p :
  processed dm s → parent_of dm s = OK (SegmentNode p) →
  2 <= n_iter s ∧ parent_id s >= 0 ∧
  get_segments dm (n_iter s - 1) !! Z.to_nat (parent_id s) = Some p ∧
  processed dm p.
Proof.
  intros [Hn Hin]. unfold parent_of, decode_parent, prev_segments.
  case_decide as Hpid; [|by destruct (_ !! _)].
  case_decide as Hn1; [by rewrite lookup_nil|].
  destruct (_ !! _) as [p'|] eqn:Hp; [|done]. intros [= ->].
  assert (p ∈ get_segments dm (n_iter s - 1)) as Hpin
    by (apply list_elem_of_lookup; eauto).
  pose proof Hpin as [Hpn _]%elem_of_get_segments.
  split_and!; [lia|done|done|].
  split; [lia|]. by rewrite Hpn.
Qed.

Lemma built_segment_node s : SegmentNode s ∈ nodes g → processed dm s.
Proof.
  intros Hs. apply (wf_endpoints _ built_wf) in Hs as (v & [Hv|Hv]);
    apply built_edge in Hv as (s' & Hs' & Heq & Hp).
  - by injection Heq as ->.
  - subst v. by eapply built_parent_processed.
Qed.

Lemma built_processed_node s : processed dm s → SegmentNode s ∈ nodes g.
Proof.
  intros Hs. destruct (built_parent s Hs) as (p & Hp).
  apply (wf_endpoints _ built_wf). exists p. left.
  apply built_edge. eauto.
Qed.

Lemma built_no_edge_from_initial_state st v :
  ¬ has_edge g (InitialStateNode st) v.
Proof. rewrite built_edge. by intros (s & _ & ? & _). Qed.

Lemma built_successors u v : has_edge g u v → successors g u = [v].
Proof.
  intros Huv. unfold successors.
  assert (filter (λ e, e.1 = u) (edges g) = [(u, v)]) as ->; [|done].
  apply NoDup_all_eq.
  - apply NoDup_filter, built_wf.
  - by apply list_elem_of_filter.
  - intros [u' v'] [Hu' Hin]%list_elem_of_filter. simpl in Hu'. subst u'.
    by rewrite (built_functional u v' v).
Qed.

Lemma built_successors_initial_state st :
  successors g (InitialStateNode st) = [].
Proof.
  unfold successors.
  destruct (filter _ _) as [|[u v] l] eqn:E; [done|].
  assert ((u, v) ∈ filter (λ e, e.1 = InitialStateNode st) (edges g))
    as [Hu Hin]%list_elem_of_filter by (rewrite E; left).
  simpl in Hu. subst u. by apply built_no_edge_from_initial_state in Hin.
Qed.
End built.

(** ** Matrices of partial functions *)

Lemma ancestor_add f a b u :
  ancestor f (a + b) u = ancestor f a u ≫= ancestor f b.
Proof.
  revert u. induction a as [|a IH]; intros u; simpl; [done|].
  destruct (f u) as [w|]; simpl; [apply IH|done].
Qed.

Lemma ancestor_closed ns f n : closed_on ns f → closed_on ns (ancestor f n).
Proof.
  intros Hf. induction n as [|n IH]; intros u v Hu; simpl.
  - by intros [= <-].
  - destruct (f u) as [w|] eqn:Hw; simpl; [|done].
    apply IH. by eapply Hf.
Qed.

Lemma fun_matrix_ext ns f h :
  (∀ u, u ∈ ns → f u = h u) → fun_matrix ns f = fun_matrix ns h.
Proof.
  intros Hfh. unfold fun_matrix. apply list_fmap_ext.
  intros i u Hu. rewrite Hfh; [done|]. apply list_elem_of_lookup. eauto.
Qed.

Lemma fmap_seq_length {A} (ns : list node) (G : nat → A) (F : node → A) :
  (∀ j v, ns !! j = Some v → G j = F v) →
  G <$> seq 0 (length ns) = F <$> ns.
Proof.
  intros HGF. apply list_eq. intros i. rewrite !list_lookup_fmap.
  destruct (ns !! i) as [v|] eqn:Hv; simpl.
  - rewrite lookup_seq_lt by (by eapply lookup_lt_Some). simpl.
    f_equal. by apply HGF.
  - rewrite lookup_seq_ge; [done|]. by apply lookup_ge_None.
Qed.

Lemma column_fun_matrix ns f j v :
  ns !! j = Some v →
  column j (fun_matrix ns f) =
  (λ w, if decide (f w = Some v) then 1 else 0) <$> ns.
Proof.
  intros Hj. unfold column, fun_matrix. rewrite <- list_fmap_compose.
  apply list_fmap_ext. intros i w _. simpl.
  by rewrite list_lookup_fmap, Hj.
Qed.

Lemma dot_fmap (a b : node → Z) ns :
  dot (a <$> ns) (b <$> ns) = foldr Z.add 0 ((λ w, a w * b w) <$> ns).
Proof.
  unfold dot. induction ns as [|w ns IH]; [done|].
  rewrite !fmap_cons. simpl. f_equal. apply IH.
Qed.

Lemma sum_zero (F : node → Z) ns :
  (∀ w, w ∈ ns → F w = 0) → foldr Z.add 0 (F <$> ns) = 0.
Proof.
  induction ns as [|w ns IH]; intros HF; csimpl; [done|].
  rewrite HF by left. rewrite IH; [done|]. intros w' ?. apply HF. by right.
Qed.

Lemma sum_single (F : node → Z) ns w0 :
  NoDup ns → w0 ∈ ns → (∀ w, w ∈ ns → w ≠ w0 → F w = 0) →
  foldr Z.add 0 (F <$> ns) = F w0.
Proof.
  induction ns as [|w ns IH]; intros Hnd Hin HF; csimpl.
  - by apply elem_of_nil in Hin.
  - apply NoDup_cons in Hnd as [Hw Hnd].
    apply elem_of_cons in Hin as [->|Hin].
    + rewrite sum_zero; [lia|]. intros w' Hw'. apply HF; [by right|].
      by intros ->.
    + rewrite HF; [|by left|by intros ->]. rewrite IH; [lia|done..|].
      intros w' ? ?. apply HF; [by right|done].
Qed.

Lemma mmul_fun_matrix ns f h :
  NoDup ns → closed_on ns f →
  mmul (fun_matrix ns f) (fun_matrix ns h) = fun_matrix ns (λ u, f u ≫= h).
Proof.
  intros Hnd Hf. unfold mmul.
  assert (length (fun_matrix ns h) = length ns) as ->
    by (unfold fun_matrix; by rewrite length_fmap).
  set (B := fun_matrix ns h). unfold fun_matrix.
  rewrite <- list_fmap_compose. apply list_fmap_ext. intros i u Hu. simpl.
  assert (u ∈ ns) as Hin by (apply list_elem_of_lookup; eauto).
  apply fmap_seq_length. intros j v Hj. subst B.
  rewrite (column_fun_matrix _ _ _ _ Hj), dot_fmap.
  destruct (f u) as [w0|] eqn:Hw0; simpl.
  - rewrite (sum_single _ _ w0); [|done|by eapply Hf|].
    + destruct (decide (Some w0 = Some w0)); [|congruence].
      destruct (decide (h w0 = Some v)); reflexivity.
    + intros w _ Hne.
      destruct (decide (Some w0 = Some w)); [congruence|reflexivity].
  - rewrite sum_zero.
    + destruct (decide (None = Some v)); [congruence|reflexivity].
    + intros w _.
      destruct (decide (None = Some w)); [congruence|reflexivity].
Qed.

Lemma pow_pos_fun_matrix ns f p :
  NoDup ns → closed_on ns f →
  pow_pos (fun_matrix ns f) p = fun_matrix ns (ancestor f (Pos.to_nat p)).
Proof.
  intros Hnd Hf. induction p as [p IH|p IH|]; simpl pow_pos.
  - rewrite IH, mmul_fun_matrix by done.
    rewrite mmul_fun_matrix; [|done|].
    + apply fun_matrix_ext. intros u _.
      rewrite Pos2Nat.inj_xI.
      replace (S (2 * Pos.to_nat p))%nat
        with (S (Pos.to_nat p) + Pos.to_nat p)%nat by lia.
      by rewrite ancestor_add.
    + apply (ancestor_closed ns f (S (Pos.to_nat p)) Hf).
  - rewrite IH, mmul_fun_matrix; [|done|by apply ancestor_closed].
    apply fun_matrix_ext. intros u _.
    rewrite Pos2Nat.inj_xO.
    replace (2 * Pos.to_nat p)%nat with (Pos.to_nat p + Pos.to_nat p)%nat
      by lia.
    by rewrite ancestor_add.
  - apply fun_matrix_ext. intros u _. simpl. by destruct (f u).
Qed.

Lemma eye_fun_matrix ns :
  NoDup ns → eye (length ns) = fun_matrix ns Some.
Proof.
  intros Hnd. unfold eye, fun_matrix.
  apply fmap_seq_length. intros i u Hi.
  apply fmap_seq_length. intros j v Hj.
  destruct (decide (i = j)) as [->|Hne].
  - rewrite decide_True; [done|]. congruence.
  - rewrite decide_False; [done|]. intros [= ->].
    by apply Hne, (NoDup_lookup ns i j v).
Qed.

(** ** Paths and the parent function of a graph *)

Lemma elem_of_successors g u v : v ∈ successors g u ↔ has_edge g u v.
Proof.
  unfold successors, has_edge. rewrite list_elem_of_fmap. split.
  - intros ([u' v'] & -> & [Hu ?]%list_elem_of_filter). simpl in *. by subst.
  - intros Huv. exists (u, v). split; [done|]. by apply list_elem_of_filter.
Qed.


Lemma parent_in_edge g u v : parent_in g u = Some v → has_edge g u v.
Proof.
  unfold parent_in. intros Hh. apply elem_of_successors.
  destruct (successors g u); simplify_eq/=. left.
Qed.

Lemma edge_parent_in g u v :
  functional g → has_edge g u v → parent_in g u = Some v.
Proof.
  intros Hfun Huv. unfold parent_in.
  destruct (successors g u) as [|w l] eqn:E.
  - apply elem_of_successors in Huv. rewrite E in Huv.
    by apply elem_of_nil in Huv.
  - simpl. f_equal. apply (Hfun u); [|done].
    apply elem_of_successors. rewrite E. left.
Qed.

Lemma path_ancestor g n : ∀ u v,
  functional g → path g n u v ↔ ancestor (parent_in g) n u = Some v.
Proof.
  induction n as [|n IH]; intros u v Hfun; simpl.
  - split; [by inversion 1|]. intros [= <-]. constructor.
  - split.
    + inversion 1 as [|? ? w ? Huw Hwv]; subst.
      rewrite (edge_parent_in g u w) by done. simpl. by apply IH.
    + destruct (parent_in g u) as [w|] eqn:Hw; simpl; [|done].
      intros Hwv. apply (path_cons g n u w v).
      * by apply parent_in_edge.
      * by apply IH.
Qed.

Lemma edge_matrix_fun_matrix g :
  functional g → edge_matrix g = fun_matrix (nodes g) (parent_in g).
Proof.
  intros Hfun. unfold edge_matrix, fun_matrix.
  apply list_fmap_ext. intros _ u _. apply list_fmap_ext. intros _ v _.
  destruct (decide ((u, v) ∈ edges g)) as [Hin|Hin];
    destruct (decide (parent_in g u = Some v)) as [Hp|Hp]; try done.
  - destruct Hp. by apply edge_parent_in.
  - destruct Hin. by apply parent_in_edge.
Qed.

Lemma parent_in_closed g : graph_wf g → closed_on (nodes g) (parent_in g).
Proof.
  intros Hwf u v _ Huv%parent_in_edge.
  apply (wf_endpoints _ Hwf). exists u. by right.
Qed.

(** ** The nonzero entries and the mapping loop *)

Lemma elem_of_find M i j w :
  (i, j, w) ∈ find M ↔
  ∃ row, M !! i = Some row ∧ row !! j = Some w ∧ w ≠ 0.
Proof.
  unfold find. rewrite list_elem_of_join. split.
  - intros (l & Hin & (i' & row & -> & Hrow)%elem_of_lookup_imap).
    apply list_elem_of_omap in Hin as (x & Hx & Hsome).
    apply elem_of_lookup_imap in Hx as (j' & w' & -> & Hw').
    simpl in Hsome. case_decide; [done|]. simplify_eq. eauto.
  - intros (row & Hrow & Hw & Hne).
    exists (omap id (imap (λ j v, if decide (v = 0) then None
                                  else Some (i, j, v)) row)).
    split.
    + apply list_elem_of_omap. exists (Some (i, j, w)). split; [|done].
      apply elem_of_lookup_imap. exists j, w. split; [|done].
      by destruct (decide (w = 0)).
    + apply elem_of_lookup_imap. exists i, row. done.
Qed.

Lemma elem_of_find_fun_matrix ns f i j w :
  (i, j, w) ∈ find (fun_matrix ns f) ↔
  ∃ u v, ns !! i = Some u ∧ ns !! j = Some v ∧ f u = Some v ∧ w = 1.
Proof.
  rewrite elem_of_find. unfold fun_matrix. split.
  - intros (row & Hrow & Hw & Hne).
    rewrite list_lookup_fmap in Hrow.
    destruct (ns !! i) as [u|]; simplify_eq/=.
    rewrite list_lookup_fmap in Hw.
    destruct (ns !! j) as [v|]; simplify_eq/=.
    exists u, v. by case_decide.
  - intros (u & v & Hu & Hv & Huv & ->). eexists. split_and!.
    + by rewrite list_lookup_fmap, Hu.
    + rewrite list_lookup_fmap, Hv. simpl. by rewrite decide_True.
    + done.
Qed.

Lemma mapping_loop ns L :
  NoDup ns →
  (∀ i j w, (i, j, w) ∈ L → is_Some (ns !! i) ∧ is_Some (ns !! j)) →
  (∀ i j j' w w', (i, j, w) ∈ L → (i, j', w') ∈ L → j = j') →
  ∃ m, for_each (record_entry ns) L ∅ = OK m ∧
    ∀ u v, m !! u = Some v ↔
      ∃ i j w, (i, j, w) ∈ L ∧ ns !! i = Some u ∧ ns !! j = Some v.
Proof.
  intros Hnd. induction L as [|[[i j] w] L IH] using rev_ind; intros Hrng Hfun.
  - exists ∅. split; [done|]. intros u v. rewrite lookup_empty. split; [done|].
    by intros (? & ? & ? & ?%elem_of_nil & _).
  - destruct IH as (m & Hm & Hlook).
    { intros i' j' w' ?. apply (Hrng i' j' w'), elem_of_app. by left. }
    { intros i' j1 j2 w1 w2 ? ?.
      apply (Hfun i' j1 j2 w1 w2); apply elem_of_app; by left. }
    destruct (Hrng i j w) as [[a Ha] [b Hb]].
    { apply elem_of_app. right. left. }
    exists (<[a := b]> m). split.
    { rewrite for_each_app, Hm. simpl. by rewrite Ha, Hb. }
    intros u v. rewrite lookup_insert. case_decide as Hu.
    + subst u. split.
      * intros [= <-]. exists i, j, w. split_and!; [|done..].
        apply elem_of_app. right. left.
      * intros (i' & j' & w' & Hin & Hi' & Hj').
        assert (i' = i) as -> by (by eapply NoDup_lookup).
        assert (j' = j) as ->.
        { apply (Hfun i j' j w' w); [done|]. apply elem_of_app. right. left. }
        congruence.
    + rewrite Hlook. split.
      * intros (i' & j' & w' & ? & ? & ?). exists i', j', w'.
        split_and!; [|done..]. apply elem_of_app. by left.
      * intros (i' & j' & w' & [?|Heq%list_elem_of_singleton]%elem_of_app
                  & Hi' & Hj').
        -- exists i', j', w'. done.
        -- by simplify_eq.
Qed.

Lemma mapping_of_fun_matrix ns f :
  NoDup ns → closed_on ns f →
  ∃ m, for_each (record_entry ns) (find (fun_matrix ns f)) ∅ = OK m ∧
    ∀ u v, m !! u = Some v ↔ u ∈ ns ∧ f u = Some v.
Proof.
  intros Hnd Hf. destruct (mapping_loop ns (find (fun_matrix ns f)) Hnd)
    as (m & Hm & Hlook).
  - intros i j w (u & v & -> & -> & _)%elem_of_find_fun_matrix. eauto.
  - intros i j j' w w' (u & v & Hu & Hv & Hf1 & _)%elem_of_find_fun_matrix
      (u' & v' & Hu' & Hv' & Hf2 & _)%elem_of_find_fun_matrix.
    simplify_eq. by eapply NoDup_lookup.
  - exists m. split; [done|]. intros u v. rewrite Hlook. split.
    + intros (i & j & w & (u' & v' & ? & ? & ? & _)%elem_of_find_fun_matrix
                & ? & ?).
      simplify_eq. split; [|done]. apply list_elem_of_lookup. eauto.
    + intros [(i & Hi)%list_elem_of_lookup Huv].
      assert (v ∈ ns) as (j & Hj)%list_elem_of_lookup
        by (eapply Hf; [|done]; apply list_elem_of_lookup; eauto).
      exists i, j, 1. split_and!; [|done..].
      apply elem_of_find_fun_matrix. exists u, v. done.
Qed.



(** ** The resolver on a graph with a parent function *)

Section resolver.
Context (g : DiGraph).
Hypothesis Hwf : graph_wf g.
Hypothesis Hfun : functional g.

Lemma adjacency_matrix_nonempty :
  nodes g ≠ [] → adjacency_matrix g = OK (edge_matrix g).
Proof. unfold adjacency_matrix. by destruct (nodes g). Qed.

Lemma child_to_parent_mapping_nonempty kind degree :
  nodes g ≠ [] →
  child_to_parent_mapping kind g degree =
  (M ← sparse_pow kind (edge_matrix g) degree;
   for_each (record_entry (nodes g)) (find M) ∅).
Proof.
  intros Hne. unfold child_to_parent_mapping.
  by rewrite adjacency_matrix_nonempty.
Qed.

Lemma sparse_pow_edge_matrix degree :
  0 <= degree →
  sparse_pow spmatrix (edge_matrix g) degree =
  OK (fun_matrix (nodes g) (ancestor (parent_in g) (Z.to_nat degree))).
Proof.
  intros Hdeg. rewrite edge_matrix_fun_matrix by done.
  destruct degree as [|p|p]; [| |lia]; simpl sparse_pow; f_equal.
  - unfold fun_matrix at 1. rewrite length_fmap.
    apply eye_fun_matrix, Hwf.
  - apply pow_pos_fun_matrix; [apply Hwf|by apply parent_in_closed].
Qed.

Lemma power_fun_matrix ns f n :
  0 < n → power (fun_matrix ns f) n = fun_matrix ns f.
Proof.
  intros Hn. unfold power, fun_matrix. rewrite <- list_fmap_compose.
  apply list_fmap_ext. intros _ u _. simpl. rewrite <- list_fmap_compose.
  apply list_fmap_ext. intros _ v _. simpl.
  destruct (decide (f u = Some v)).
  - by rewrite Z.pow_1_l by lia.
  - by rewrite Z.pow_0_l by lia.
Qed.


Lemma child_to_parent_mapping_ancestor degree :
  nodes g ≠ [] → 0 <= degree →
  ∃ m, child_to_parent_mapping spmatrix g degree = OK m ∧
    ∀ u v, m !! u = Some v ↔
      u ∈ nodes g ∧ ancestor (parent_in g) (Z.to_nat degree) u = Some v.
Proof.
  intros Hne Hdeg.
  rewrite child_to_parent_mapping_nonempty, sparse_pow_edge_matrix by done.
  apply mapping_of_fun_matrix; [apply Hwf|].
  by apply ancestor_closed, parent_in_closed.
Qed.

(** On a sparse array every positive exponent gives the mapping of the
    edges. *)
Lemma child_to_parent_mapping_array degree :
  nodes g ≠ [] → 0 < degree →
  ∃ m, child_to_parent_mapping sparray g degree = OK m ∧
    ∀ u v, m !! u = Some v ↔ has_edge g u v.
Proof.
  intros Hne Hdeg. rewrite child_to_parent_mapping_nonempty by done.
  assert (sparse_pow sparray (edge_matrix g) degree = OK (edge_matrix g))
    as ->.
  { destruct degree as [|p|p]; [lia| |lia]. unfold sparse_pow. f_equal.
    rewrite edge_matrix_fun_matrix by done. by apply power_fun_matrix. }
  rewrite edge_matrix_fun_matrix by done.
  change (OK ?M ≫= ?k) with (k M). cbv beta.
  destruct (mapping_of_fun_matrix (nodes g) (parent_in g))
    as (m & Hm & Hlook); [apply Hwf|by apply parent_in_closed|].
  exists m. split; [done|]. intros u v. rewrite Hlook. split.
  - intros [_ ?]. by apply parent_in_edge.
  - intros Huv. split; [|by apply edge_parent_in].
    apply (wf_endpoints _ Hwf). exists v. by left.
Qed.



Lemma child_to_parent_mapping_path degree :
  nodes g ≠ [] → 0 <= degree →
  ∃ m, child_to_parent_mapping spmatrix g degree = OK m ∧
    ∀ u v, m !! u = Some v ↔ u ∈ nodes g ∧ path g (Z.to_nat degree) u v.
Proof.
  intros Hne Hdeg.
  destruct (child_to_parent_mapping_ancestor degree) as (m & Hm & Hlook);
    [done..|].
  exists m. split; [done|]. intros u v.
  by rewrite Hlook, path_ancestor.
Qed.

End resolver.

Lemma child_to_parent_mapping_no_nodes kind g degree :
  nodes g = [] → child_to_parent_mapping kind g degree = Raise NetworkXError.
Proof.
  intros Hnil. unfold child_to_parent_mapping, adjacency_matrix.
  by rewrite Hnil.
Qed.

Lemma path_1_edge g u v : path g 1 u v ↔ has_edge g u v.
Proof.
  split.
  - inversion 1 as [|? ? w ? Huw Hwv]; subst. by inversion Hwv; subst.
  - intros Huv. eapply path_cons; [done|constructor].
Qed.

(** ** Edges lead one iteration back *)

Section lineage.
Context (dm : WESTDataManager) (g : DiGraph).
Hypothesis Hbuilt : get_history_graph dm = OK g.

Lemma built_edge_segment s p :
  has_edge g (SegmentNode s) (SegmentNode p) →
  processed dm s ∧ processed dm p ∧ n_iter p = n_iter s - 1.
Proof.
  intros (s' & Hs' & [= <-] & Hp)%(built_edge dm g Hbuilt).
  destruct (built_parent_processed dm s p Hs' Hp) as (_ & _ & Hl & Hpp).
  split_and!; [done..|].
  assert (p ∈ get_segments dm (n_iter s - 1)) as [? _]%elem_of_get_segments
    by (apply list_elem_of_lookup; eauto).
  done.
Qed.

Lemma built_edge_source u v : has_edge g u v → ∃ s, u = SegmentNode s ∧ processed dm s.
Proof. intros (s & ? & ? & _)%(built_edge dm g Hbuilt). eauto. Qed.

Lemma path_from_initial_state d st v :
  path g d (InitialStateNode st) v → d = 0%nat ∧ v = InitialStateNode st.
Proof.
  inversion 1 as [|? ? w ? Hedge]; subst; [done|].
  by apply (built_no_edge_from_initial_state dm g Hbuilt) in Hedge.
Qed.

Lemma built_path_iteration d : ∀ s p,
  path g d (SegmentNode s) (SegmentNode p) →
  n_iter p = n_iter s - Z.of_nat d.
Proof.
  induction d as [|d IH]; intros s p.
  - inversion 1; subst. lia.
  - inversion 1 as [|? ? w ? Hedge Hrest]; subst. destruct w as [q|st].
    + apply built_edge_segment in Hedge as (_ & _ & Hq).
      apply IH in Hrest. lia.
    + by apply path_from_initial_state in Hrest as [_ ?].
Qed.

Lemma built_path_depth d : ∀ s v,
  path g (S d) (SegmentNode s) v →
  processed dm s ∧ Z.of_nat (S d) <= n_iter s.
Proof.
  induction d as [|d IH]; intros s v.
  - inversion 1 as [|? ? w ? Hedge Hrest]; subst.
    apply built_edge_source in Hedge as (s' & [= <-] & Hs).
    split; [done|]. destruct Hs as [? _]. lia.
  - inversion 1 as [|? ? w ? Hedge Hrest]; subst. destruct w as [q|st].
    + apply built_edge_segment in Hedge as (Hs & _ & Hq).
      apply IH in Hrest as [_ ?]. split; [done|]. lia.
    + by apply path_from_initial_state in Hrest as [? _].
Qed.

Lemma built_path_source d u v :
  path g (S d) u v → ∃ s, u = SegmentNode s ∧ processed dm s.
Proof.
  inversion 1 as [|? ? w ? Hedge Hrest]; subst.
  by apply built_edge_source in Hedge.
Qed.
End lineage.

Lemma path_target d : ∀ g u v, path g (S d) u v → ∃ w, has_edge g w v.
Proof.
  induction d as [|d IH]; intros g u v.
  - inversion 1 as [|? ? w ? Hedge Hrest]; subst.
    inversion Hrest; subst. eauto.
  - inversion 1 as [|? ? w ? Hedge Hrest]; subst. by eapply IH.
Qed.

Lemma built_mapping dm g degree :
  get_history_graph dm = OK g → nodes g ≠ [] → 0 <= degree →
  ∃ m, child_to_parent_mapping spmatrix g degree = OK m ∧
    (∀ u v, m !! u = Some v ↔ u ∈ nodes g ∧ path g (Z.to_nat degree) u v) ∧
    (∀ u v, m !! u = Some v ↔
       u ∈ nodes g ∧ ancestor (parent_in g) (Z.to_nat degree) u = Some v).
Proof.
  intros Hg Hne Hdeg.
  pose proof (built_wf dm g Hg) as Hwf.
  pose proof (built_functional dm g Hg) as Hfun.
  destruct (child_to_parent_mapping_ancestor g Hwf Hfun degree Hne Hdeg)
    as (m & Hm & Hlook).
  exists m. split_and!; [done| |done].
  intros u v. by rewrite Hlook, path_ancestor.
Qed.

(** ** The first reference that fails *)

Lemma states_dict_is_Some l k :
  is_Some (states_dict l !! k) ↔ ∃ st, st ∈ l ∧ state_id st = k.
Proof.
  split.
  - intros [st Hst]. exists st. by apply states_dict_lookup.
  - intros (st & Hin & Hid).
    destruct (states_dict l !! k) as [st'|] eqn:E; [by exists st'|].
    by eapply states_dict_lookup_None in E.
Qed.

Lemma elem_of_get_initial_states dm n st :
  st ∈ get_initial_states dm n ↔
  istate_iter st = n ∧ istate_index dm n !! istate_pos st = Some (state_id st).
Proof.
  unfold get_initial_states. rewrite elem_of_lookup_imap. split.
  - intros (i & sid & -> & Hi). done.
  - intros (<- & Hi). exists (istate_pos st), (state_id st). by destruct st.
Qed.

Lemma state_id_stored dm n k :
  (∃ st, st ∈ get_initial_states dm n ∧ state_id st = k) ↔
  k ∈ istate_index dm n.
Proof.
  rewrite list_elem_of_lookup. split.
  - intros (st & [_ Hst]%elem_of_get_initial_states & <-). eauto.
  - intros (i & Hi). exists (mkInitialState n i k). split; [|done].
    by apply elem_of_get_initial_states.
Qed.

Lemma parent_of_resolvable dm s :
  (∃ p, parent_of dm s = OK p) ↔ resolvable dm s.
Proof.
  unfold parent_of, decode_parent, resolvable, prev_segments.
  destruct (decide (parent_id s >= 0)) as [Hpid|Hpid].
  - destruct (decide (n_iter s <= 1)) as [Hn|Hn].
    + rewrite lookup_nil. split; [by intros [? ?]|]. intros [?|?]; lia.
    + destruct (get_segments dm (n_iter s - 1) !! _) as [q|] eqn:Hq.
      * split; [|by eauto]. intros _. left.
        apply lookup_lt_Some in Hq. unfold get_segments in Hq.
        rewrite length_imap in Hq. split_and!; [lia..|done].
      * split; [by intros [? ?]|]. intros [(_ & _ & Hlt)|?]; [|lia].
        apply lookup_ge_None in Hq. unfold get_segments in Hq.
        rewrite length_imap in Hq. lia.
  - cbv zeta. rewrite <- state_id_stored, <- states_dict_is_Some.
    destruct (states_dict _ !! _) as [st|] eqn:Hst.
    + split; [|by eauto]. intros _. right. split; [lia|by eauto].
    + split; [by intros [? ?]|]. intros [?|[_ [? ?]]]; [lia|done].
Qed.

Lemma add_segments_Raise_first ps ist segs : ∀ g e,
  add_segments ps ist g segs = Raise e →
  ∃ pre s suf, segs = pre ++ s :: suf ∧
    (∀ x, x ∈ pre → ∃ p, decode_parent ps ist x = OK p) ∧
    decode_parent ps ist s = Raise e.
Proof.
  induction segs as [|s segs IH]; intros g e; [done|].
  rewrite add_segments_cons, bind_Raise.
  intros [?|(p & Hp & (pre & s' & suf & -> & Hpre & Hs')%IH)].
  - exists [], s, segs. split_and!; [done| |done]. by intros x ?%elem_of_nil.
  - exists (s :: pre), s', suf. split_and!; [done| |done].
    intros x [->|?]%elem_of_cons; eauto.
Qed.

Lemma get_segments_lookup_self dm s :
  s ∈ get_segments dm (n_iter s) →
  get_segments dm (n_iter s) !! seg_id s = Some s.
Proof.
  intros [_ Hs]%elem_of_get_segments.
  rewrite lookup_get_segments, Hs. by destruct s.
Qed.

Lemma iterations_Raise_first dm len : ∀ a g e,
  1 <= a →
  for_each (iteration_body dm) (seqZ a (Z.of_nat len))
           (g, prev_segments dm a) = Raise e →
  ∃ s, a <= n_iter s < a + Z.of_nat len ∧ s ∈ get_segments dm (n_iter s) ∧
       parent_of dm s = Raise e ∧
       ∀ s', a <= n_iter s' → s' ∈ get_segments dm (n_iter s') →
             visited_before s' s → ∃ p, parent_of dm s' = OK p.
Proof.
  induction len as [|len IH]; intros a g e Ha; [done|].
  rewrite seqZ_cons by lia. simpl for_each. rewrite bind_Raise.
  intros [Hbody|([g1 ps1] & Hbody & Hrest)];
    unfold iteration_body in Hbody; simpl in Hbody.
  - apply bind_Raise in Hbody as [Hinner|(? & _ & ?)]; [|done].
    apply add_segments_Raise_first in Hinner
      as (pre & s & suf & Hsplit & Hpre & Hs).
    assert (s ∈ get_segments dm a) as Hin.
    { rewrite Hsplit. apply elem_of_app. right. left. }
    pose proof Hin as [Hn _]%elem_of_get_segments.
    assert (seg_id s = length pre) as Hid.
    { assert (get_segments dm a !! length pre = Some s) as Hl
        by (rewrite Hsplit; apply list_lookup_middle; done).
      rewrite lookup_get_segments in Hl.
      destruct (seg_index dm a !! length pre) as [pid|]; simpl in Hl;
        [|discriminate].
      injection Hl as <-. done. }
    exists s. unfold parent_of. rewrite Hn. split_and!; [lia..|done|done|].
    intros s' Hs'n Hs'in [?|[Heq Hlt]]; [lia|].
    apply get_segments_lookup_self in Hs'in as Hl.
    rewrite Heq, Hn, Hsplit, lookup_app_l in Hl by lia.
    rewrite Heq, Hn. apply Hpre.
    apply list_elem_of_lookup. eauto.
  - apply bind_OK in Hbody as (g1' & Hinner & [= <- <-]).
    rewrite prev_segments_succ in Hrest by done.
    replace (Z.pred (Z.of_nat (S len))) with (Z.of_nat len) in Hrest by lia.
    apply IH in Hrest as (s & ? & ? & ? & Hbefore); [|lia].
    apply add_segments_OK in Hinner as (Hall & _ & _).
    exists s. split_and!; [lia..|done|done|].
    intros s' Hs'n Hs'in Hvb.
    destruct (decide (n_iter s' = a)) as [Heq|Hne].
    + unfold parent_of. rewrite Heq in *. by apply Hall.
    + apply Hbefore; [lia|done..].
Qed.

Lemma parent_of_Raise dm s e :
  parent_of dm s = Raise e →
  (parent_id s >= 0 ∧
   (length (prev_segments dm (n_iter s)) <= Z.to_nat (parent_id s))%nat ∧
   e = IndexError) ∨
  (parent_id s < 0 ∧
   (∀ st, st ∈ get_initial_states dm (n_iter s) →
          state_id st ≠ - (parent_id s + 1)) ∧
   e = KeyError).
Proof.
  unfold parent_of, decode_parent.
  destruct (decide (parent_id s >= 0)) as [Hpid|Hpid].
  - destruct (prev_segments dm (n_iter s) !! _) eqn:Hl; [done|].
    intros [= <-]. left. by apply lookup_ge_None in Hl.
  - cbv zeta. destruct (states_dict _ !! _) eqn:Hl; [done|].
    intros [= <-]. right. split_and!; [lia| |done].
    by apply states_dict_lookup_None.
Qed.

Lemma get_history_graph_first_failure dm e :
  get_history_graph dm = Raise e →
  ∃ s0, processed dm s0 ∧ parent_of dm s0 = Raise e ∧
    ∀ s', processed dm s' → visited_before s' s0 → resolvable dm s'.
Proof.
  unfold get_history_graph. rewrite bind_Raise, range_seqZ.
  intros [Hr|(? & _ & ?)]; [|done].
  apply (iterations_Raise_first dm _ 1 empty_graph) in Hr
    as (s0 & Hn0 & Hin0 & He0 & Hfirst); [|done].
  exists s0. split_and!; [split; [lia|done]|done|].
  intros s' [Hn' Hin'] Hvb. apply parent_of_resolvable.
  apply Hfirst; [lia|done..].
Qed.

Lemma processed_same_place dm s1 s2 :
  processed dm s1 → processed dm s2 →
  ¬ visited_before s1 s2 → ¬ visited_before s2 s1 → s1 = s2.
Proof.
  intros [_ H1] [_ H2] Hn1 Hn2.
  assert (n_iter s1 = n_iter s2 ∧ seg_id s1 = seg_id s2) as [Hni Hsi]
    by (unfold visited_before in *; lia).
  apply get_segments_lookup_self in H1, H2.
  rewrite Hni, Hsi in H1. congruence.
Qed.

(** * The claims *)

(** ** C1: decoding of [parent_id] *)

(** C1, as stated, fails.  In [scenario_E] the segment of iteration 2 has
    [parent_id = -1]; the claim makes its parent the initial state with
    [state_id = 0] of the preceding iteration 1, but the builder looks the id
    up among the initial states fetched for iteration 2 itself, and the
    segment has no edge to any initial state of iteration 1. *)
Lemma C1_counterexample :
  ∃ g s,
    get_history_graph scenario_E = OK g ∧ processed scenario_E s ∧
    parent_id s < 0 ∧
    successors g (SegmentNode s) = [InitialStateNode (mkInitialState 2 0 0)] ∧
    ¬ ∃ st, st ∈ get_initial_states scenario_E (n_iter s - 1) ∧
            state_id st = - (parent_id s + 1) ∧
            has_edge g (SegmentNode s) (InitialStateNode st).
Proof.
  exists (built_graph scenario_E), (mkSegment 2 0 (-1)).
  split_and!; [done| |done|done|].
  - split; [done|]. apply elem_of_get_segments. done.
  - intros (st & Hst & _ & Hedge).
    apply list_elem_of_singleton in Hst as ->.
    apply elem_of_cons in Hedge as [?|Hedge]; [done|].
    apply list_elem_of_singleton in Hedge. done.
Qed.

(** C1, amended: for every segment the builder processes, the parent is decoded
    from [parent_id] as follows.  If [parent_id >= 0], the parent is the
    element at index [parent_id] of the preceding iteration's segment list.
    If [parent_id < 0], the parent is the initial state with
    [state_id = -(parent_id + 1)] among the initial states fetched for the
    segment's own iteration.  In particular [parent_id = 3] decodes to the
    segment at index 3 and [parent_id = -2] to the initial state with
    [state_id = 1]. *)
Theorem C1_parent_decoding dm g s :
  get_history_graph dm = OK g → processed dm s →
  (parent_id s >= 0 →
     ∃ p, 2 <= n_iter s ∧
       get_segments dm (n_iter s - 1) !! Z.to_nat (parent_id s) = Some p ∧
       successors g (SegmentNode s) = [SegmentNode p]) ∧
  (parent_id s < 0 →
     ∃ st, st ∈ get_initial_states dm (n_iter s) ∧
       state_id st = - (parent_id s + 1) ∧
       successors g (SegmentNode s) = [InitialStateNode st]) ∧
  (parent_id s = 3 →
     ∃ p, get_segments dm (n_iter s - 1) !! 3%nat = Some p ∧
       successors g (SegmentNode s) = [SegmentNode p]) ∧
  (parent_id s = -2 →
     ∃ st, st ∈ get_initial_states dm (n_iter s) ∧ state_id st = 1 ∧
       successors g (SegmentNode s) = [InitialStateNode st]).
Proof.
  intros Hg Hs.
  destruct (built_parent dm g Hg s Hs) as (p & Hp).
  assert (successors g (SegmentNode s) = [p]) as Hsucc.
  { apply (built_successors dm g Hg), (built_edge dm g Hg). eauto. }
  assert (parent_id s >= 0 →
     ∃ p, 2 <= n_iter s ∧
       get_segments dm (n_iter s - 1) !! Z.to_nat (parent_id s) = Some p ∧
       successors g (SegmentNode s) = [SegmentNode p]) as Hpos.
  { intros Hpid. pose proof Hp as Hp'. unfold parent_of, decode_parent in Hp'.
    rewrite decide_True in Hp' by done.
    destruct (_ !! _) as [q|]; [|done]. injection Hp' as <-.
    destruct (built_parent_processed dm s q Hs Hp) as (? & _ & ? & _).
    exists q. by rewrite Hsucc. }
  assert (parent_id s < 0 →
     ∃ st, st ∈ get_initial_states dm (n_iter s) ∧
       state_id st = - (parent_id s + 1) ∧
       successors g (SegmentNode s) = [InitialStateNode st]) as Hneg.
  { intros Hpid. pose proof Hp as Hp'. unfold parent_of, decode_parent in Hp'.
    rewrite decide_False in Hp' by lia. cbv zeta in Hp'.
    destruct (states_dict _ !! _) as [st|] eqn:Hst; [|done].
    injection Hp' as <-.
    apply states_dict_lookup in Hst as [? ?].
    exists st. by rewrite Hsucc. }
  split_and!; [done|done| |].
  - intros Hpid. destruct Hpos as (q & _ & Hq & ?); [lia|].
    rewrite Hpid in Hq. by exists q.
  - intros Hpid. destruct Hneg as (st & ? & Hid & ?); [lia|].
    rewrite Hpid in Hid. by exists st.
Qed.

Lemma C1_parent_decoding_witness :
  let s := mkSegment 2 1 1 in
  get_history_graph scenario_A = OK (built_graph scenario_A) ∧
  processed scenario_A s ∧
  ∃ p, 2 <= n_iter s ∧
    get_segments scenario_A (n_iter s - 1) !! Z.to_nat (parent_id s) = Some p ∧
    successors (built_graph scenario_A) (SegmentNode s) = [SegmentNode p].
Proof.
  intros s.
  assert (get_history_graph scenario_A = OK (built_graph scenario_A)) as Hg
    by (apply is_OK_built_graph; vm_compute; reflexivity).
  assert (processed scenario_A s) as Hs.
  { split; [vm_compute; by split|]. apply elem_of_get_segments.
    vm_compute. by split. }
  split_and!; [exact Hg|exact Hs|].
  apply (C1_parent_decoding scenario_A (built_graph scenario_A) s Hg Hs).
  vm_compute. discriminate.
Defined.

(** ** C2: Scenario A *)

(** C2, as stated, fails: in the graph of Scenario A the mapping at depth 2
    does not send the segment of iteration 3 to the initial state with
    [state_id = 0], neither where [**] is the matrix power nor where it is
    the element-wise power. *)
Lemma C2_counterexample :
  ∃ g m m',
    get_history_graph scenario_A = OK g ∧
    child_to_parent_mapping spmatrix g 2 = OK m ∧
    m !! SegmentNode (mkSegment 3 0 0)
      ≠ Some (InitialStateNode (mkInitialState 1 0 0)) ∧
    child_to_parent_mapping sparray g 2 = OK m' ∧
    m' !! SegmentNode (mkSegment 3 0 0)
      ≠ Some (InitialStateNode (mkInitialState 1 0 0)).
Proof.
  exists (built_graph scenario_A),
         (returned (child_to_parent_mapping spmatrix (built_graph scenario_A) 2)),
         (returned (child_to_parent_mapping sparray (built_graph scenario_A) 2)).
  split_and!.
  - apply is_OK_built_graph. vm_compute. reflexivity.
  - apply is_OK_returned. vm_compute. reflexivity.
  - vm_compute. discriminate.
  - apply is_OK_returned. vm_compute. reflexivity.
  - vm_compute. discriminate.
Qed.

(** C2, amended: for the input of Scenario A the built graph has exactly 7
    nodes and 5 edges; where [**] is the matrix power, that is where
    [networkx.adjacency_matrix] returns a [scipy.sparse] matrix (networkx
    before 3.0), the mapping at depth 2 sends the segment of iteration 3 to
    the segment at index 0 of iteration 1, and it is the mapping at depth 3
    that sends it to the initial state with [state_id = 0]. *)
Theorem C2_scenario_A :
  ∃ g m2 m3,
    get_history_graph scenario_A = OK g ∧
    number_of_nodes g = 7%nat ∧ number_of_edges g = 5%nat ∧
    child_to_parent_mapping spmatrix g 2 = OK m2 ∧
    m2 !! SegmentNode (mkSegment 3 0 0)
      = Some (SegmentNode (mkSegment 1 0 (-1))) ∧
    child_to_parent_mapping spmatrix g 3 = OK m3 ∧
    m3 !! SegmentNode (mkSegment 3 0 0)
      = Some (InitialStateNode (mkInitialState 1 0 0)).
Proof.
  exists (built_graph scenario_A),
         (returned (child_to_parent_mapping spmatrix (built_graph scenario_A) 2)),
         (returned (child_to_parent_mapping spmatrix (built_graph scenario_A) 3)).
  split_and!.
  - apply is_OK_built_graph. vm_compute. reflexivity.
  - vm_compute. reflexivity.
  - vm_compute. reflexivity.
  - apply is_OK_returned. vm_compute. reflexivity.
  - vm_compute. reflexivity.
  - apply is_OK_returned. vm_compute. reflexivity.
  - vm_compute. reflexivity.
Qed.

(** ** C3: parent references that cannot be resolved *)

(** C3, as stated, fails: in Scenario B ([parent_id = 5] against three
    segments) the builder raises [IndexError], not
    [MalformedLineageError]. *)
Lemma C3_counterexample :
  get_history_graph scenario_B = Raise IndexError ∧
  get_history_graph scenario_B ≠ Raise MalformedLineageError.
Proof.
  assert (get_history_graph scenario_B = Raise IndexError) as H
    by (vm_compute; reflexivity).
  split; [exact H|]. rewrite H. discriminate.
Qed.

(** C3, amended: when a processed segment has a non-negative [parent_id] out
    of range for the preceding iteration's segment list, or a negative
    [parent_id] whose derived [state_id] is absent from the initial states
    fetched for the segment's own iteration, the builder returns no graph: it
    raises at the first reference, in the order of the visits, that cannot
    be resolved, [IndexError] when that reference is a non-negative
    [parent_id] out of range and [KeyError] when it is a negative [parent_id]
    whose [state_id] is absent. *)
Theorem C3_unresolved_parent dm s :
  processed dm s →
  (parent_id s >= 0 ∧
   (length (prev_segments dm (n_iter s)) <= Z.to_nat (parent_id s))%nat) ∨
  (parent_id s < 0 ∧
   ∀ st, st ∈ get_initial_states dm (n_iter s) →
         state_id st ≠ - (parent_id s + 1)) →
  ∃ s0, processed dm s0 ∧ (s0 = s ∨ visited_before s0 s) ∧
    (∀ s', processed dm s' → visited_before s' s0 → resolvable dm s') ∧
    ((parent_id s0 >= 0 ∧
      (length (prev_segments dm (n_iter s0)) <= Z.to_nat (parent_id s0))%nat ∧
      get_history_graph dm = Raise IndexError) ∨
     (parent_id s0 < 0 ∧
      (∀ st, st ∈ get_initial_states dm (n_iter s0) →
             state_id st ≠ - (parent_id s0 + 1)) ∧
      get_history_graph dm = Raise KeyError)) ∧
    ∀ g, get_history_graph dm ≠ OK g.
Proof.
  intros Hs Hbad.
  assert (∃ e0, parent_of dm s = Raise e0) as (e0 & He0).
  { unfold parent_of, decode_parent.
    destruct Hbad as [[Hpid Hlen]|[Hpid Habs]].
    - rewrite decide_True by done.
      rewrite (proj2 (lookup_ge_None _ _) Hlen). eauto.
    - rewrite decide_False by lia. cbv zeta.
      rewrite (proj2 (states_dict_lookup_None _ _) Habs). eauto. }
  destruct (get_history_graph dm) as [g|e] eqn:Hg.
  { destruct (built_parent dm g Hg s Hs) as (p & Hp). congruence. }
  destruct (get_history_graph_first_failure dm e Hg)
    as (s0 & Hs0 & He & Hfirst).
  exists s0. split_and!; [done| |done| |done].
  - destruct (decide (s0 = s)) as [|Hne]; [by left|]. right.
    destruct (decide (n_iter s0 < n_iter s)) as [|Hn]; [by left|].
    destruct (decide (n_iter s0 = n_iter s ∧ (seg_id s0 < seg_id s)%nat))
      as [|Hi]; [by right|].
    destruct Hne. apply (processed_same_place dm); [done..| |].
    + unfold visited_before. tauto.
    + intros Hvb. apply Hfirst, parent_of_resolvable in Hvb as (p & Hp);
        [congruence|done].
  - apply parent_of_Raise in He as [(? & ? & ->)|(? & ? & ->)];
      [left|right]; done.
Qed.

Lemma C3_unresolved_parent_witness :
  let s := mkSegment 2 0 5 in
  processed scenario_B s ∧
  (length (prev_segments scenario_B (n_iter s)) <= Z.to_nat (parent_id s))%nat ∧
  ∃ s0, processed scenario_B s0 ∧ (s0 = s ∨ visited_before s0 s) ∧
    (∀ s', processed scenario_B s' → visited_before s' s0 →
           resolvable scenario_B s') ∧
    ((parent_id s0 >= 0 ∧
      (length (prev_segments scenario_B (n_iter s0))
       <= Z.to_nat (parent_id s0))%nat ∧
      get_history_graph scenario_B = Raise IndexError) ∨
     (parent_id s0 < 0 ∧
      (∀ st, st ∈ get_initial_states scenario_B (n_iter s0) →
             state_id st ≠ - (parent_id s0 + 1)) ∧
      get_history_graph scenario_B = Raise KeyError)) ∧
    ∀ g, get_history_graph scenario_B ≠ OK g.
Proof.
  intros s.
  assert (processed scenario_B s) as Hs.
  { split; [vm_compute; by split|]. apply elem_of_get_segments.
    vm_compute. by split. }
  assert (length (prev_segments scenario_B (n_iter s))
          <= Z.to_nat (parent_id s))%nat as Hlen
    by (vm_compute; lia).
  split_and!; [exact Hs|exact Hlen|].
  apply (C3_unresolved_parent scenario_B s Hs).
  left. split; [vm_compute; discriminate|exact Hlen].
Defined.

(** ** C4: a depth that is not positive *)




(** ** C5: the graph without nodes *)

(** C5, as stated, fails: the graph built from the empty simulation of
    Scenario D has no nodes, and the resolver called on it with depth 1
    raises [NetworkXError] instead of returning the empty mapping, whichever
    sparse class networkx hands out. *)
Lemma C5_counterexample :
  get_history_graph scenario_D = OK empty_graph ∧
  child_to_parent_mapping spmatrix empty_graph 1 = Raise NetworkXError ∧
  child_to_parent_mapping spmatrix empty_graph 1 ≠ OK ∅ ∧
  child_to_parent_mapping sparray empty_graph 1 = Raise NetworkXError ∧
  child_to_parent_mapping sparray empty_graph 1 ≠ OK ∅.
Proof.
  assert (∀ kind,
            child_to_parent_mapping kind empty_graph 1 = Raise NetworkXError)
    as H by reflexivity.
  split_and!; [reflexivity|exact (H _)|exact (Raise_not_OK _ _ _ (H _))
              |exact (H _)|exact (Raise_not_OK _ _ _ (H _))].
Qed.

(** C5, amended: for a built graph without nodes the resolver raises
    [NetworkXError] at every depth; it returns no mapping. *)
Theorem C5_empty_graph kind dm g degree :
  get_history_graph dm = OK g → nodes g = [] →
  child_to_parent_mapping kind g degree = Raise NetworkXError ∧
  ∀ m, child_to_parent_mapping kind g degree ≠ OK m.
Proof.
  intros _ Hnil. rewrite child_to_parent_mapping_no_nodes by done. done.
Qed.

Lemma C5_empty_graph_witness :
  get_history_graph scenario_D = OK empty_graph ∧
  nodes empty_graph = [] ∧
  (child_to_parent_mapping spmatrix empty_graph 1 = Raise NetworkXError ∧
   ∀ m, child_to_parent_mapping spmatrix empty_graph 1 ≠ OK m) ∧
  (child_to_parent_mapping sparray empty_graph 1 = Raise NetworkXError ∧
   ∀ m, child_to_parent_mapping sparray empty_graph 1 ≠ OK m).
Proof.
  assert (get_history_graph scenario_D = OK empty_graph) as Hg
    by (vm_compute; reflexivity).
  split; [exact Hg|]. split; [reflexivity|]. split.
  - exact (C5_empty_graph spmatrix scenario_D empty_graph 1 Hg eq_refl).
  - exact (C5_empty_graph sparray scenario_D empty_graph 1 Hg eq_refl).
Defined.

(** ** C6: depth 1 *)

Lemma built_depth_one kind dm g :
  get_history_graph dm = OK g → nodes g ≠ [] →
  ∃ m, child_to_parent_mapping kind g 1 = OK m ∧
    ∀ u v, m !! u = Some v ↔ has_edge g u v.
Proof.
  intros Hg Hne.
  pose proof (built_wf dm g Hg) as Hwf.
  pose proof (built_functional dm g Hg) as Hfun.
  destruct kind; [|by apply child_to_parent_mapping_array].
  destruct (child_to_parent_mapping_path g Hwf Hfun 1 Hne)
    as (m & Hm & Hlook); [done|].
  exists m. split; [done|]. intros u v.
  rewrite Hlook. change (Z.to_nat 1) with 1%nat. rewrite path_1_edge.
  split; [by intros [_ ?]|]. intros Huv. split; [|done].
  apply (wf_endpoints _ Hwf). exists v. by left.
Qed.

(** C6: in a built graph, for every segment [s] of the graph the mapping at
    depth 1 contains [s] and maps it to the one node [s] has an edge to; the
    mapping as a whole is the set of edges recorded during construction.
    This holds whichever sparse class networkx hands out. *)
Theorem C6_depth_one kind dm g s :
  get_history_graph dm = OK g → SegmentNode s ∈ nodes g →
  ∃ m p, child_to_parent_mapping kind g 1 = OK m ∧
    m !! SegmentNode s = Some p ∧
    successors g (SegmentNode s) = [p] ∧
    ∀ u v, m !! u = Some v ↔ has_edge g u v.
Proof.
  intros Hg Hs.
  destruct (built_depth_one kind dm g Hg) as (m & Hm & Hlook).
  { intros Hnil. rewrite Hnil in Hs. by apply elem_of_nil in Hs. }
  apply (built_segment_node dm g Hg) in Hs.
  destruct (built_parent dm g Hg s Hs) as (p & Hp).
  assert (has_edge g (SegmentNode s) p) as Hedge
    by (apply (built_edge dm g Hg); eauto).
  exists m, p. split_and!; [done| |by eapply built_successors|done].
  by apply Hlook.
Qed.

Lemma C6_depth_one_witness :
  let s := mkSegment 3 0 0 in
  let g := built_graph scenario_A in
  get_history_graph scenario_A = OK g ∧ SegmentNode s ∈ nodes g ∧
  (∃ m p, child_to_parent_mapping spmatrix g 1 = OK m ∧
     m !! SegmentNode s = Some p ∧ successors g (SegmentNode s) = [p] ∧
     ∀ u v, m !! u = Some v ↔ has_edge g u v) ∧
  (∃ m p, child_to_parent_mapping sparray g 1 = OK m ∧
     m !! SegmentNode s = Some p ∧ successors g (SegmentNode s) = [p] ∧
     ∀ u v, m !! u = Some v ↔ has_edge g u v).
Proof.
  intros s g.
  assert (get_history_graph scenario_A = OK g) as Hg
    by (apply is_OK_built_graph; vm_compute; reflexivity).
  assert (SegmentNode s ∈ nodes g) as Hs
    by (apply list_elem_of_In; vm_compute; tauto).
  split; [exact Hg|]. split; [exact Hs|]. split.
  - exact (C6_depth_one spmatrix scenario_A g s Hg Hs).
  - exact (C6_depth_one sparray scenario_A g s Hg Hs).
Defined.

(** ** C7: the power of the adjacency matrix *)




(** ** C8: out-degrees *)

(** C8, as stated, fails: in the graph of Scenario A the first segment of
    iteration 1 has an initial state as its parent, and its out-degree is 1,
    not 0: the edge to the initial state is its outgoing edge. *)
Lemma C8_counterexample :
  let s := mkSegment 1 0 (-1) in
  ∃ g,
    get_history_graph scenario_A = OK g ∧ processed scenario_A s ∧
    n_iter s = 1 ∧
    has_edge g (SegmentNode s) (InitialStateNode (mkInitialState 1 0 0)) ∧
    out_degree g (SegmentNode s) = 1%nat ∧
    out_degree g (SegmentNode s) ≠ 0%nat.
Proof.
  intros s. exists (built_graph scenario_A).
  assert (out_degree (built_graph scenario_A) (SegmentNode s) = 1%nat) as H
    by (vm_compute; reflexivity).
  split_and!.
  - apply is_OK_built_graph. vm_compute. reflexivity.
  - split; [vm_compute; by split|]. apply elem_of_get_segments.
    vm_compute. by split.
  - reflexivity.
  - apply list_elem_of_In. vm_compute. tauto.
  - exact H.
  - rewrite H. discriminate.
Qed.

(** C8, amended: in every built graph, every segment node has out-degree
    exactly 1, the segments of iteration 1 whose parent is an initial state
    included, and every initial-state node has out-degree 0. *)
Theorem C8_out_degree dm g :
  get_history_graph dm = OK g →
  (∀ s, SegmentNode s ∈ nodes g → out_degree g (SegmentNode s) = 1%nat) ∧
  (∀ st, out_degree g (InitialStateNode st) = 0%nat) ∧
  (∀ s st, processed dm s → n_iter s = 1 →
           parent_of dm s = OK (InitialStateNode st) →
           out_degree g (SegmentNode s) = 1%nat).
Proof.
  intros Hg.
  assert (∀ s, processed dm s → out_degree g (SegmentNode s) = 1%nat) as H.
  { intros s Hs. destruct (built_parent dm g Hg s Hs) as (p & Hp).
    unfold out_degree. rewrite (built_successors dm g Hg _ p); [done|].
    apply (built_edge dm g Hg). eauto. }
  split_and!.
  - intros s Hs. by apply H, (built_segment_node dm g Hg).
  - intros st. unfold out_degree.
    by rewrite (built_successors_initial_state dm g Hg).
  - intros s st Hs _ _. by apply H.
Qed.

Lemma C8_out_degree_witness :
  get_history_graph scenario_A = OK (built_graph scenario_A) ∧
  (∀ s, SegmentNode s ∈ nodes (built_graph scenario_A) →
        out_degree (built_graph scenario_A) (SegmentNode s) = 1%nat) ∧
  (∀ st, out_degree (built_graph scenario_A) (InitialStateNode st) = 0%nat) ∧
  (∀ s st, processed scenario_A s → n_iter s = 1 →
           parent_of scenario_A s = OK (InitialStateNode st) →
           out_degree (built_graph scenario_A) (SegmentNode s) = 1%nat).
Proof.
  assert (get_history_graph scenario_A = OK (built_graph scenario_A)) as Hg
    by (apply is_OK_built_graph; vm_compute; reflexivity).
  split; [exact Hg|].
  exact (C8_out_degree scenario_A (built_graph scenario_A) Hg).
Defined.

(** ** C9: the iterations the builder visits *)

Lemma for_each_ext {A S} (f h : S → A → result S) l :
  (∀ s a, a ∈ l → f s a = h s a) →
  ∀ s, for_each f l s = for_each h l s.
Proof.
  induction l as [|a l IH]; intros Hfh s; simpl; [done|].
  rewrite Hfh by left. destruct (h s a) as [s'|e]; simpl; [|done].
  apply IH. intros s'' a' ?. apply Hfh. by right.
Qed.

Lemma get_history_graph_ext dm dm' :
  current_iteration dm' = current_iteration dm →
  (∀ n, 1 <= n < current_iteration dm →
        seg_index dm' n = seg_index dm n ∧
        istate_index dm' n = istate_index dm n) →
  get_history_graph dm' = get_history_graph dm.
Proof.
  intros Hcur Hsame. unfold get_history_graph. rewrite Hcur.
  rewrite (for_each_ext (iteration_body dm') (iteration_body dm)); [done|].
  intros st n Hn. unfold range in Hn. apply elem_of_seqZ in Hn.
  destruct (Hsame n) as [Hseg Hist]; [lia|].
  unfold iteration_body, get_segments, get_initial_states.
  by rewrite Hseg, Hist.
Qed.

(** C9: the builder adds edges for the segments of iterations 1 to
    [current_iteration - 1] and for no others.  Every segment in the graph,
    child or parent, belongs to one of these iterations; every segment of
    these iterations is the child of an edge; no segment of the current
    iteration is a node; and the records of the iterations outside this
    range, the current one among them, have no influence on the result. *)
Theorem C9_iterations dm g :
  get_history_graph dm = OK g →
  (∀ s, SegmentNode s ∈ nodes g → 1 <= n_iter s < current_iteration dm) ∧
  (∀ u v, has_edge g u v →
     ∃ s, u = SegmentNode s ∧ 1 <= n_iter s < current_iteration dm ∧
          s ∈ get_segments dm (n_iter s)) ∧
  (∀ s, 1 <= n_iter s < current_iteration dm →
        s ∈ get_segments dm (n_iter s) →
        ∃ p, has_edge g (SegmentNode s) p) ∧
  (∀ s, s ∈ get_segments dm (current_iteration dm) →
        SegmentNode s ∉ nodes g) ∧
  (∀ dm', current_iteration dm' = current_iteration dm →
     (∀ n, 1 <= n < current_iteration dm →
           seg_index dm' n = seg_index dm n ∧
           istate_index dm' n = istate_index dm n) →
     get_history_graph dm' = OK g).
Proof.
  intros Hg. split_and!.
  - intros s Hs. by apply (built_segment_node dm g Hg) in Hs as [? _].
  - intros u v (s & [? ?] & -> & _)%(built_edge dm g Hg). eauto.
  - intros s Hn Hin.
    destruct (built_parent dm g Hg s) as (p & Hp); [done|].
    exists p. apply (built_edge dm g Hg). exists s. done.
  - intros s [Hn _]%elem_of_get_segments
      [? _]%(built_segment_node dm g Hg). lia.
  - intros dm' Hcur Hsame. rewrite <- Hg.
    by apply get_history_graph_ext.
Qed.

Lemma C9_iterations_witness :
  let dm := scenario_A in
  let g := built_graph scenario_A in
  get_history_graph dm = OK g ∧
  (∀ s, SegmentNode s ∈ nodes g → 1 <= n_iter s < current_iteration dm) ∧
  (∀ u v, has_edge g u v →
     ∃ s, u = SegmentNode s ∧ 1 <= n_iter s < current_iteration dm ∧
          s ∈ get_segments dm (n_iter s)) ∧
  (∀ s, 1 <= n_iter s < current_iteration dm →
        s ∈ get_segments dm (n_iter s) →
        ∃ p, has_edge g (SegmentNode s) p) ∧
  (∀ s, s ∈ get_segments dm (current_iteration dm) →
        SegmentNode s ∉ nodes g) ∧
  (∀ dm', current_iteration dm' = current_iteration dm →
     (∀ n, 1 <= n < current_iteration dm →
           seg_index dm' n = seg_index dm n ∧
           istate_index dm' n = istate_index dm n) →
     get_history_graph dm' = OK g).
Proof.
  intros dm g.
  assert (get_history_graph dm = OK g) as Hg
    by (apply is_OK_built_graph; vm_compute; reflexivity).
  split; [exact Hg|].
  exact (C9_iterations dm g Hg).
Defined.

(** ** C10: the default depth *)

(** C10: a call without a depth argument is the call with depth 1, and on a
    built graph with a segment it returns the direct child-to-parent
    mapping, whichever sparse class networkx hands out. *)
Theorem C10_default_degree kind dm g s :
  get_history_graph dm = OK g → SegmentNode s ∈ nodes g →
  call_child_to_parent_mapping kind g None = child_to_parent_mapping kind g 1 ∧
  call_child_to_parent_mapping kind g None
    = call_child_to_parent_mapping kind g (Some 1) ∧
  ∃ m, call_child_to_parent_mapping kind g None = OK m ∧
    ∀ u v, m !! u = Some v ↔ has_edge g u v.
Proof.
  intros Hg Hs. split_and!; [done..|].
  apply (built_depth_one kind dm g Hg).
  intros Hnil. rewrite Hnil in Hs. by apply elem_of_nil in Hs.
Qed.

Lemma C10_default_degree_witness :
  let s := mkSegment 3 0 0 in
  let g := built_graph scenario_A in
  get_history_graph scenario_A = OK g ∧ SegmentNode s ∈ nodes g ∧
  (call_child_to_parent_mapping spmatrix g None
     = child_to_parent_mapping spmatrix g 1 ∧
   call_child_to_parent_mapping spmatrix g None
     = call_child_to_parent_mapping spmatrix g (Some 1) ∧
   ∃ m, call_child_to_parent_mapping spmatrix g None = OK m ∧
     ∀ u v, m !! u = Some v ↔ has_edge g u v) ∧
  (call_child_to_parent_mapping sparray g None
     = child_to_parent_mapping sparray g 1 ∧
   call_child_to_parent_mapping sparray g None
     = call_child_to_parent_mapping sparray g (Some 1) ∧
   ∃ m, call_child_to_parent_mapping sparray g None = OK m ∧
     ∀ u v, m !! u = Some v ↔ has_edge g u v).
Proof.
  intros s g.
  assert (get_history_graph scenario_A = OK g) as Hg
    by (apply is_OK_built_graph; vm_compute; reflexivity).
  assert (SegmentNode s ∈ nodes g) as Hs
    by (apply list_elem_of_In; vm_compute; tauto).
  split; [exact Hg|]. split; [exact Hs|]. split.
  - exact (C10_default_degree spmatrix scenario_A g s Hg Hs).
  - exact (C10_default_degree sparray scenario_A g s Hg Hs).
Defined.

(** * Further properties of the history graph *)

(** ** The graph has no cycle *)

(** X1: a built history graph is acyclic: no path of one or more edges leads
    from a node back to itself. *)
Theorem history_graph_acyclic dm g u d :
  get_history_graph dm = OK g → ¬ path g (S d) u u.
Proof.
  intros Hg Hp. destruct u as [s|st].
  - apply (built_path_iteration dm g Hg) in Hp. lia.
  - by apply (path_from_initial_state dm g Hg) in Hp as [? _].
Qed.

Lemma history_graph_acyclic_witness :
  get_history_graph scenario_A = OK (built_graph scenario_A) ∧
  ¬ path (built_graph scenario_A) 2
      (SegmentNode (mkSegment 3 0 0)) (SegmentNode (mkSegment 3 0 0)).
Proof.
  assert (get_history_graph scenario_A = OK (built_graph scenario_A)) as Hg
    by (apply is_OK_built_graph; vm_compute; reflexivity).
  split; [exact Hg|].
  exact (history_graph_acyclic scenario_A (built_graph scenario_A) _ 1 Hg).
Defined.

(** ** The ancestor at lag [degree] *)

(** X2: where [**] is the matrix power ([networkx.adjacency_matrix]
    returning a [scipy.sparse] matrix, networkx before 3.0), on a built graph
    with nodes and for a positive [degree], every key of the returned mapping
    is a segment the builder visited, of an iteration not below [degree]; and
    when its value is a segment, that segment belongs to the iteration
    exactly [degree] before the key's. *)
Theorem ancestor_iteration dm g degree :
  get_history_graph dm = OK g → nodes g ≠ [] → 0 < degree →
  ∃ m, child_to_parent_mapping spmatrix g degree = OK m ∧
    ∀ u v, m !! u = Some v →
      ∃ s, u = SegmentNode s ∧ processed dm s ∧ degree <= n_iter s ∧
        ∀ p, v = SegmentNode p →
             processed dm p ∧ n_iter p = n_iter s - degree.
Proof.
  intros Hg Hne Hdeg.
  destruct (built_mapping dm g degree Hg Hne) as (m & Hm & Hpath & _); [lia|].
  exists m. split; [done|]. intros u v [Hu Hp]%Hpath.
  destruct (Z.to_nat degree) as [|d] eqn:Hd; [lia|].
  destruct (built_path_source dm g Hg d u v Hp) as (s & -> & Hs).
  destruct (built_path_depth dm g Hg d s v Hp) as [_ Hle].
  exists s. split_and!; [done|done|lia|].
  intros p ->. split.
  - apply (built_segment_node dm g Hg), (wf_endpoints _ (built_wf dm g Hg)).
    destruct (path_target d g _ _ Hp) as (w & Hw). exists w. by right.
  - apply (built_path_iteration dm g Hg) in Hp. lia.
Qed.

Lemma ancestor_iteration_witness :
  get_history_graph scenario_A = OK (built_graph scenario_A) ∧
  nodes (built_graph scenario_A) ≠ [] ∧ 0 < 2 ∧
  ∃ m, child_to_parent_mapping spmatrix (built_graph scenario_A) 2 = OK m ∧
    ∀ u v, m !! u = Some v →
      ∃ s, u = SegmentNode s ∧ processed scenario_A s ∧ 2 <= n_iter s ∧
        ∀ p, v = SegmentNode p →
             processed scenario_A p ∧ n_iter p = n_iter s - 2.
Proof.
  assert (get_history_graph scenario_A = OK (built_graph scenario_A)) as Hg
    by (apply is_OK_built_graph; vm_compute; reflexivity).
  assert (nodes (built_graph scenario_A) ≠ []) as Hne
    by (vm_compute; discriminate).
  split; [exact Hg|]. split; [exact Hne|]. split; [reflexivity|].
  exact (ancestor_iteration scenario_A (built_graph scenario_A) 2
           Hg Hne eq_refl).
Defined.

(** X3: where [**] is the matrix power ([networkx.adjacency_matrix]
    returning a [scipy.sparse] matrix, networkx before 3.0), on a built graph
    with nodes a [degree] of [current_iteration] or more reaches behind every
    lineage: the call returns the empty dictionary. *)
Theorem no_ancestor_beyond_history dm g degree :
  get_history_graph dm = OK g → nodes g ≠ [] →
  current_iteration dm <= degree →
  child_to_parent_mapping spmatrix g degree = OK ∅.
Proof.
  intros Hg Hne Hdeg.
  assert (2 <= current_iteration dm) as Hcur.
  { destruct (nodes g) as [|u l] eqn:E; [done|].
    assert (u ∈ nodes g) as Hu by (rewrite E; left).
    apply (wf_endpoints _ (built_wf dm g Hg)) in Hu as (v & [Hv|Hv]);
      apply (built_edge_source dm g Hg) in Hv as (s & _ & [? _]); lia. }
  destruct (built_mapping dm g degree Hg Hne) as (m & Hm & Hpath & _); [lia|].
  rewrite Hm. f_equal. apply map_empty. intros u.
  destruct (m !! u) as [v|] eqn:Hv; [|done].
  apply Hpath in Hv as [_ Hp].
  destruct (Z.to_nat degree) as [|d] eqn:Hd; [lia|].
  destruct (built_path_source dm g Hg d u v Hp) as (s & -> & [? _]).
  destruct (built_path_depth dm g Hg d s v Hp) as [_ Hle]. lia.
Qed.

Lemma no_ancestor_beyond_history_witness :
  get_history_graph scenario_A = OK (built_graph scenario_A) ∧
  nodes (built_graph scenario_A) ≠ [] ∧
  current_iteration scenario_A <= 4 ∧
  child_to_parent_mapping spmatrix (built_graph scenario_A) 4 = OK ∅.
Proof.
  assert (get_history_graph scenario_A = OK (built_graph scenario_A)) as Hg
    by (apply is_OK_built_graph; vm_compute; reflexivity).
  assert (nodes (built_graph scenario_A) ≠ []) as Hne
    by (vm_compute; discriminate).
  assert (current_iteration scenario_A <= 4) as Hcur
    by (vm_compute; discriminate).
  split; [exact Hg|]. split; [exact Hne|]. split; [exact Hcur|].
  exact (no_ancestor_beyond_history scenario_A (built_graph scenario_A) 4
           Hg Hne Hcur).
Defined.

(** X4: where [**] is the matrix power ([networkx.adjacency_matrix]
    returning a [scipy.sparse] matrix, networkx before 3.0), on a built graph
    with nodes lags compose: the mapping at [a + b] is the mapping at [a]
    followed by the mapping at [b].  In particular a key of the mapping at
    [a + 1] is a key of the mapping at [a]. *)
Theorem mapping_composition dm g a b :
  get_history_graph dm = OK g → nodes g ≠ [] → 0 <= a → 0 <= b →
  ∃ ma mb mab,
    child_to_parent_mapping spmatrix g a = OK ma ∧
    child_to_parent_mapping spmatrix g b = OK mb ∧
    child_to_parent_mapping spmatrix g (a + b) = OK mab ∧
    ∀ u v, mab !! u = Some v ↔ ∃ w, ma !! u = Some w ∧ mb !! w = Some v.
Proof.
  intros Hg Hne Ha Hb.
  destruct (built_mapping dm g a Hg Hne Ha) as (ma & Hma & _ & Hla).
  destruct (built_mapping dm g b Hg Hne Hb) as (mb & Hmb & _ & Hlb).
  destruct (built_mapping dm g (a + b) Hg Hne) as (mab & Hmab & _ & Hlab);
    [lia|].
  exists ma, mb, mab. split_and!; [done..|].
  intros u v. rewrite Hlab, Z2Nat.inj_add, ancestor_add by done.
  setoid_rewrite Hla. setoid_rewrite Hlb. split.
  - intros [Hu Hanc].
    destruct (ancestor (parent_in g) (Z.to_nat a) u) as [w|] eqn:Hw; [|done].
    exists w. split_and!; [done..| |done].
    eapply (ancestor_closed (nodes g)); [|done..].
    apply parent_in_closed, (built_wf dm g Hg).
  - intros (w & [Hu Hw] & [_ Hv]). split; [done|]. by rewrite Hw.
Qed.

Lemma mapping_composition_witness :
  get_history_graph scenario_A = OK (built_graph scenario_A) ∧
  nodes (built_graph scenario_A) ≠ [] ∧ 0 <= 1 ∧ 0 <= 2 ∧
  ∃ ma mb mab,
    child_to_parent_mapping spmatrix (built_graph scenario_A) 1 = OK ma ∧
    child_to_parent_mapping spmatrix (built_graph scenario_A) 2 = OK mb ∧
    child_to_parent_mapping spmatrix (built_graph scenario_A) (1 + 2) = OK mab ∧
    ∀ u v, mab !! u = Some v ↔ ∃ w, ma !! u = Some w ∧ mb !! w = Some v.
Proof.
  assert (get_history_graph scenario_A = OK (built_graph scenario_A)) as Hg
    by (apply is_OK_built_graph; vm_compute; reflexivity).
  assert (nodes (built_graph scenario_A) ≠ []) as Hne
    by (vm_compute; discriminate).
  assert (0 <= 1) as H1 by (vm_compute; discriminate).
  assert (0 <= 2) as H2 by (vm_compute; discriminate).
  split; [exact Hg|]. split; [exact Hne|]. split; [exact H1|].
  split; [exact H2|].
  exact (mapping_composition scenario_A (built_graph scenario_A) 1 2
           Hg Hne H1 H2).
Defined.

(** ** When the builder returns a graph *)

(** X5: the builder returns a graph exactly when every segment it visits
    has a parent reference that the stored tables can answer; otherwise it
    raises. *)
Theorem builder_succeeds_iff dm :
  (∃ g, get_history_graph dm = OK g) ↔
  ∀ s, processed dm s → resolvable dm s.
Proof.
  split.
  - intros (g & Hg) s Hs. apply parent_of_resolvable.
    by apply (built_parent dm g Hg).
  - intros Hall. destruct (get_history_graph dm) as [g|e] eqn:Hg; [eauto|].
    apply get_history_graph_Raise in Hg as (s & Hs & He).
    apply Hall, parent_of_resolvable in Hs as (p & Hp). congruence.
Qed.

(** X6: the exception the builder raises is the one of the first segment,
    in the order of the visits, whose parent reference fails: [IndexError]
    when that segment's [parent_id] is not negative, [KeyError] when it
    is. *)
Theorem first_failure_decides dm s e :
  processed dm s → parent_of dm s = Raise e →
  (∀ s', processed dm s' → visited_before s' s → resolvable dm s') →
  get_history_graph dm = Raise e ∧
  e = (if decide (parent_id s >= 0) then IndexError else KeyError).
Proof.
  intros Hs He Hbefore. split.
  - destruct (get_history_graph dm) as [g|e'] eqn:Hg.
    { destruct (built_parent dm g Hg s Hs) as (p & Hp). congruence. }
    unfold get_history_graph in Hg. rewrite bind_Raise, range_seqZ in Hg.
    destruct Hg as [Hr|(? & _ & ?)]; [|done].
    apply (iterations_Raise_first dm _ 1 empty_graph) in Hr
      as (s0 & Hn0 & Hin0 & He0 & Hfirst); [|done].
    assert (processed dm s0) as Hs0 by (split; [lia|done]).
    destruct Hs as [Hn Hin].
    assert (¬ visited_before s0 s) as Hnot1.
    { intros Hvb. apply Hbefore, parent_of_resolvable in Hvb as (p & Hp);
        [congruence|done]. }
    assert (¬ visited_before s s0) as Hnot2.
    { intros Hvb. apply Hfirst in Hvb as (p & Hp); [congruence|lia|done]. }
    assert (n_iter s0 = n_iter s ∧ seg_id s0 = seg_id s) as [Hni Hsi].
    { unfold visited_before in *. lia. }
    assert (s0 = s) as ->; [|congruence].
    apply get_segments_lookup_self in Hin0, Hin.
    rewrite Hni, Hsi in Hin0. congruence.
  - unfold parent_of, decode_parent in He.
    destruct (decide (parent_id s >= 0)).
    + destruct (_ !! _); congruence.
    + cbv zeta in He. destruct (_ !! _); congruence.
Qed.

Lemma first_failure_decides_witness :
  let s := mkSegment 2 0 5 in
  processed scenario_B s ∧ parent_of scenario_B s = Raise IndexError ∧
  get_history_graph scenario_B = Raise IndexError ∧
  IndexError = (if decide (parent_id s >= 0) then IndexError else KeyError).
Proof.
  intros s.
  assert (processed scenario_B s) as Hs.
  { split; [vm_compute; by split|]. apply elem_of_get_segments.
    vm_compute. by split. }
  assert (parent_of scenario_B s = Raise IndexError) as He
    by (vm_compute; reflexivity).
  split; [exact Hs|]. split; [exact He|].
  apply (first_failure_decides scenario_B s IndexError Hs He).
  intros s' [[Hlo Hhi] Hin] [Hlt|[Heq Hlt]].
  - assert (n_iter s' = 1) as Hn1.
    { change (n_iter s) with 2 in Hlt. lia. }
    rewrite Hn1 in Hin. apply elem_of_get_segments in Hin as [_ Hl].
    right. rewrite Hn1.
    assert (parent_id s' = -1) as ->.
    { change (seg_index scenario_B 1) with [-1; -1; -1] in Hl.
      destruct (seg_id s') as [|[|[|?]]]; simpl in Hl;
        rewrite ?lookup_nil in Hl; congruence. }
    split; [done|]. change (istate_index scenario_B 1) with [0]. left.
  - change (seg_id s) with 0%nat in Hlt. lia.
Defined.

(** ** Size and node set of the graph *)

Lemma elem_of_all_segments dm s : s ∈ all_segments dm ↔ processed dm s.
Proof.
  unfold all_segments, processed, range. rewrite list_elem_of_bind. split.
  - intros (n & Hin & Hn%elem_of_seqZ).
    pose proof Hin as [-> _]%elem_of_get_segments. split; [lia|done].
  - intros [Hn Hin]. exists (n_iter s). split; [done|].
    apply elem_of_seqZ. lia.
Qed.

Lemma NoDup_get_segments dm n : NoDup (get_segments dm n).
Proof.
  apply NoDup_alt. intros i j s. rewrite !lookup_get_segments.
  destruct (seg_index dm n !! i), (seg_index dm n !! j); intros; by simplify_eq/=.
Qed.

Lemma NoDup_all_segments dm : NoDup (all_segments dm).
Proof.
  unfold all_segments, range. apply NoDup_bind.
  - intros n1 n2 s _ _ [<- _]%elem_of_get_segments [<- _]%elem_of_get_segments.
    done.
  - intros n _. apply NoDup_get_segments.
  - apply NoDup_seqZ.
Qed.

Lemma length_bind_sum {A B} (f : A → list B) l :
  length (l ≫= f) = sum_list_with (λ x, length (f x)) l.
Proof.
  induction l as [|x l IH]; [done|].
  rewrite bind_cons, length_app, IH. done.
Qed.

(** X7: a built graph has exactly one edge per visited segment: the number
    of edges is the number of segments stored for iterations 1 to
    [current_iteration - 1]. *)
Theorem number_of_edges_is_number_of_segments dm g :
  get_history_graph dm = OK g →
  number_of_edges g =
  sum_list_with (λ n, length (seg_index dm n)) (range 1 (current_iteration dm)).
Proof.
  intros Hg. unfold number_of_edges.
  set (edge_of := λ s, (SegmentNode s,
                        match parent_of dm s with
                        | OK p => p
                        | Raise _ => SegmentNode s
                        end)).
  assert (edges g ≡ₚ edge_of <$> all_segments dm) as ->.
  { apply NoDup_Permutation.
    - apply (built_wf dm g Hg).
    - apply NoDup_fmap_2_strong; [|apply NoDup_all_segments].
      by intros s1 s2 _ _ [= ->].
    - intros [u v]. rewrite list_elem_of_fmap.
      change ((u, v) ∈ edges g) with (has_edge g u v).
      rewrite (built_edge dm g Hg). unfold edge_of.
      setoid_rewrite elem_of_all_segments. split.
      + intros (s & Hs & -> & Hp). exists s. by rewrite Hp.
      + intros (s & [= -> ->] & Hs). exists s.
        destruct (built_parent dm g Hg s Hs) as (p & Hp). by rewrite Hp. }
  rewrite length_fmap. unfold all_segments. rewrite length_bind_sum.
  unfold get_segments.
  induction (range 1 (current_iteration dm)) as [|n l IH]; [done|].
  simpl. by rewrite length_imap, IH.
Qed.

Lemma number_of_edges_is_number_of_segments_witness :
  get_history_graph scenario_A = OK (built_graph scenario_A) ∧
  number_of_edges (built_graph scenario_A) =
  sum_list_with (λ n, length (seg_index scenario_A n))
                (range 1 (current_iteration scenario_A)).
Proof.
  assert (get_history_graph scenario_A = OK (built_graph scenario_A)) as Hg
    by (apply is_OK_built_graph; vm_compute; reflexivity).
  split; [exact Hg|].
  exact (number_of_edges_is_number_of_segments scenario_A
           (built_graph scenario_A) Hg).
Defined.

(** X8: the nodes of a built graph are the visited segments and those
    initial states that some visited segment has as its decoded parent; an
    initial state no segment starts from is not a node. *)
Theorem nodes_of_history_graph dm g :
  get_history_graph dm = OK g →
  (∀ s, SegmentNode s ∈ nodes g ↔ processed dm s) ∧
  (∀ st, InitialStateNode st ∈ nodes g ↔
     ∃ s, processed dm s ∧ parent_id s < 0 ∧
          istate_iter st = n_iter s ∧ state_id st = - (parent_id s + 1) ∧
          parent_of dm s = OK (InitialStateNode st)).
Proof.
  intros Hg. split.
  - intros s. split.
    + apply (built_segment_node dm g Hg).
    + apply (built_processed_node dm g Hg).
  - intros st. rewrite (wf_endpoints _ (built_wf dm g Hg)). split.
    + intros (v & [Hv|Hv]).
      { by apply (built_no_edge_from_initial_state dm g Hg) in Hv. }
      apply (built_edge dm g Hg) in Hv as (s & Hs & -> & Hp).
      exists s. pose proof Hp as Hp'.
      unfold parent_of, decode_parent in Hp'.
      destruct (decide (parent_id s >= 0)); [by destruct (_ !! _)|].
      cbv zeta in Hp'.
      destruct (states_dict _ !! _) as [st'|] eqn:Hst; [|done].
      injection Hp' as ->.
      apply states_dict_lookup in Hst as [[? _]%elem_of_get_initial_states ?].
      split_and!; [done|lia|done..].
    + intros (s & Hs & _ & _ & _ & Hp). exists (SegmentNode s). right.
      apply (built_edge dm g Hg). eauto.
Qed.

Lemma nodes_of_history_graph_witness :
  let dm := scenario_A in
  let g := built_graph scenario_A in
  get_history_graph dm = OK g ∧
  (∀ s, SegmentNode s ∈ nodes g ↔ processed dm s) ∧
  (∀ st, InitialStateNode st ∈ nodes g ↔
     ∃ s, processed dm s ∧ parent_id s < 0 ∧
          istate_iter st = n_iter s ∧ state_id st = - (parent_id s + 1) ∧
          parent_of dm s = OK (InitialStateNode st)).
Proof.
  intros dm g.
  assert (get_history_graph dm = OK g) as Hg
    by (apply is_OK_built_graph; vm_compute; reflexivity).
  split; [exact Hg|].
  exact (nodes_of_history_graph dm g Hg).
Defined.

(** X9: the builder returns the graph without nodes exactly when no
    segment is stored for any of the iterations 1 to
    [current_iteration - 1], in particular when [current_iteration] is at
    most 1. *)
Theorem empty_history_graph dm :
  get_history_graph dm = OK empty_graph ↔
  ∀ n, 1 <= n < current_iteration dm → seg_index dm n = [].
Proof.
  split.
  - intros Hg n Hn. destruct (seg_index dm n) as [|pid l] eqn:E; [done|].
    assert (processed dm (mkSegment n 0 pid)) as Hs.
    { split; [done|]. apply elem_of_get_segments. simpl. by rewrite E. }
    apply (built_processed_node dm _ Hg) in Hs. by apply elem_of_nil in Hs.
  - intros Hnone.
    assert (∀ s, ¬ processed dm s) as Hnot.
    { intros s [Hn [_ Hin]%elem_of_get_segments].
      by rewrite (Hnone _ Hn) in Hin. }
    destruct (proj2 (builder_succeeds_iff dm)) as (g & Hg).
    { intros s Hs. by apply Hnot in Hs. }
    rewrite Hg. f_equal.
    assert (edges g = []) as He.
    { destruct (edges g) as [|[u v] l] eqn:E; [done|].
      assert (has_edge g u v) as Huv by (unfold has_edge; rewrite E; left).
      apply (built_edge dm g Hg) in Huv as (s & Hs & _). by apply Hnot in Hs. }
    assert (nodes g = []) as Hn.
    { destruct (nodes g) as [|u l] eqn:E; [done|].
      assert (u ∈ nodes g) as Hu by (rewrite E; left).
      apply (wf_endpoints _ (built_wf dm g Hg)) in Hu as (v & [Hv|Hv]);
        unfold has_edge in Hv; rewrite He in Hv; by apply elem_of_nil in Hv. }
    destruct g. simpl in *. by subst.
Qed.

(** ** Initial states *)

Lemma states_dict_snoc_other l (m : gmap Z InitialState) k :
  (∀ x, x ∈ l → state_id x ≠ k) →
  foldl (λ m st, <[state_id st := st]> m) m l !! k = m !! k.
Proof.
  revert m. induction l as [|x l IH]; intros m Hl; [done|]. simpl.
  rewrite IH by (intros y ?; apply Hl; by right).
  apply lookup_insert_ne, Hl. left.
Qed.

Lemma states_dict_last l1 st l2 :
  (∀ x, x ∈ l2 → state_id x ≠ state_id st) →
  states_dict (l1 ++ st :: l2) !! state_id st = Some st.
Proof.
  intros Hl2. unfold states_dict. rewrite foldl_app. simpl.
  rewrite states_dict_snoc_other by done. apply lookup_insert_eq.
Qed.

(** X10: when several initial states of an iteration carry the same
    [state_id], a segment that refers to this id gets the last of them as its
    parent. *)
Theorem duplicate_state_id_last_wins dm g s l1 st l2 :
  get_history_graph dm = OK g → processed dm s → parent_id s < 0 →
  get_initial_states dm (n_iter s) = l1 ++ st :: l2 →
  state_id st = - (parent_id s + 1) →
  (∀ x, x ∈ l2 → state_id x ≠ state_id st) →
  successors g (SegmentNode s) = [InitialStateNode st].
Proof.
  intros Hg Hs Hpid Hsplit Hid Hl2.
  apply (built_successors dm g Hg), (built_edge dm g Hg).
  exists s. split_and!; [done..|].
  unfold parent_of, decode_parent. rewrite decide_False by lia. cbv zeta.
  by rewrite Hsplit, <- Hid, states_dict_last.
Qed.

Lemma duplicate_state_id_last_wins_witness :
  let s := mkSegment 1 0 (-1) in
  let st := mkInitialState 1 1 0 in
  get_history_graph scenario_F = OK (built_graph scenario_F) ∧
  processed scenario_F s ∧ parent_id s < 0 ∧
  get_initial_states scenario_F (n_iter s)
    = [mkInitialState 1 0 0] ++ st :: [] ∧
  successors (built_graph scenario_F) (SegmentNode s) = [InitialStateNode st].
Proof.
  intros s st.
  assert (get_history_graph scenario_F = OK (built_graph scenario_F)) as Hg
    by (apply is_OK_built_graph; vm_compute; reflexivity).
  assert (processed scenario_F s) as Hs.
  { split; [vm_compute; by split|]. apply elem_of_get_segments.
    vm_compute. by split. }
  assert (parent_id s < 0) as Hpid by (vm_compute; reflexivity).
  assert (get_initial_states scenario_F (n_iter s)
          = [mkInitialState 1 0 0] ++ st :: []) as Hsplit
    by (vm_compute; reflexivity).
  split; [exact Hg|]. split; [exact Hs|]. split; [exact Hpid|].
  split; [exact Hsplit|].
  apply (duplicate_state_id_last_wins scenario_F (built_graph scenario_F)
           s [mkInitialState 1 0 0] st [] Hg Hs Hpid Hsplit eq_refl).
  intros x Hx. by apply elem_of_nil in Hx.
Defined.

Lemma built_lineage dm g :
  get_history_graph dm = OK g →
  ∀ k s, Z.to_nat (n_iter s) = k → processed dm s →
    ∃ d st, (1 <= d)%nat ∧ Z.of_nat d <= n_iter s ∧
            path g d (SegmentNode s) (InitialStateNode st).
Proof.
  intros Hg. induction k as [|k IH]; intros s Hk Hs.
  { destruct Hs as [? _]. lia. }
  destruct (built_parent dm g Hg s Hs) as (p & Hp).
  assert (has_edge g (SegmentNode s) p) as Hedge
    by (apply (built_edge dm g Hg); eauto).
  destruct p as [q|st].
  - apply (built_edge_segment dm g Hg) in Hedge as Hq.
    destruct Hq as (_ & Hq & Hn).
    destruct (IH q) as (d & st & Hd & Hle & Hpath); [lia|done|].
    exists (S d), st. split_and!; [lia..|]. by eapply path_cons.
  - exists 1%nat, st. destruct Hs as [? _].
    split_and!; [lia..|]. by apply path_1_edge.
Qed.

(** X11: in a built graph every visited segment descends from an initial
    state: following parent edges from a segment of iteration [n] ends, after
    [d] steps with [1 <= d <= n], in an initial state.  Where [**] is the
    matrix power ([networkx.adjacency_matrix] returning a [scipy.sparse]
    matrix, networkx before 3.0), the resolver returns an ancestor of the
    segment exactly for the lags up to [d], and at lag [d] this ancestor is
    the initial state. *)
Theorem lineage_ends_in_initial_state dm g s :
  get_history_graph dm = OK g → processed dm s →
  ∃ d st, 1 <= d <= n_iter s ∧
    path g (Z.to_nat d) (SegmentNode s) (InitialStateNode st) ∧
    ∀ degree, 0 <= degree →
      ∃ m, child_to_parent_mapping spmatrix g degree = OK m ∧
        (is_Some (m !! SegmentNode s) ↔ degree <= d) ∧
        (degree = d → m !! SegmentNode s = Some (InitialStateNode st)).
Proof.
  intros Hg Hs.
  destruct (built_lineage dm g Hg _ s eq_refl Hs) as (d & st & Hd & Hle & Hp).
  exists (Z.of_nat d), st. rewrite Nat2Z.id. split_and!; [lia..|done|].
  intros degree Hdeg.
  pose proof (built_processed_node dm g Hg s Hs) as Hnode.
  assert (nodes g ≠ []) as Hne.
  { intros Hnil. rewrite Hnil in Hnode. by apply elem_of_nil in Hnode. }
  destruct (built_mapping dm g degree Hg Hne Hdeg) as (m & Hm & Hpath & Hanc).
  pose proof (built_functional dm g Hg) as Hfun.
  pose proof Hp as Hp'. apply path_ancestor in Hp'; [|done].
  assert (∀ k, ancestor (parent_in g) (S k) (InitialStateNode st) = None)
    as Hend.
  { intros k. simpl. unfold parent_in.
    by rewrite (built_successors_initial_state dm g Hg). }
  exists m. split_and!; [done| |].
  - split.
    + intros [v [_ Hv]%Hanc].
      destruct (decide (degree <= Z.of_nat d)) as [|Hgt]; [done|].
      replace (Z.to_nat degree) with (d + S (Z.to_nat degree - d - 1))%nat
        in Hv by lia.
      rewrite ancestor_add, Hp' in Hv. simpl in Hv.
      change (parent_in g (InitialStateNode st) ≫= _)
        with (ancestor (parent_in g) (S (Z.to_nat degree - d - 1))
                (InitialStateNode st)) in Hv.
      by rewrite Hend in Hv.
    + intros Hle'.
      replace d with (Z.to_nat degree + (d - Z.to_nat degree))%nat
        in Hp' by lia.
      rewrite ancestor_add in Hp'.
      destruct (ancestor (parent_in g) (Z.to_nat degree) (SegmentNode s))
        as [v|] eqn:Hv; [|done].
      exists v. by apply Hanc.
  - intros ->. apply Hanc. by rewrite Nat2Z.id.
Qed.

Lemma lineage_ends_in_initial_state_witness :
  let s := mkSegment 3 0 0 in
  get_history_graph scenario_A = OK (built_graph scenario_A) ∧
  processed scenario_A s ∧
  ∃ d st, 1 <= d <= n_iter s ∧
    path (built_graph scenario_A) (Z.to_nat d)
         (SegmentNode s) (InitialStateNode st) ∧
    ∀ degree, 0 <= degree →
      ∃ m, child_to_parent_mapping spmatrix (built_graph scenario_A) degree = OK m ∧
        (is_Some (m !! SegmentNode s) ↔ degree <= d) ∧
        (degree = d → m !! SegmentNode s = Some (InitialStateNode st)).
Proof.
  intros s.
  assert (get_history_graph scenario_A = OK (built_graph scenario_A)) as Hg
    by (apply is_OK_built_graph; vm_compute; reflexivity).
  assert (processed scenario_A s) as Hs.
  { split; [vm_compute; by split|]. apply elem_of_get_segments.
    vm_compute. by split. }
  split; [exact Hg|]. split; [exact Hs|].
  exact (lineage_ends_in_initial_state scenario_A (built_graph scenario_A) s
           Hg Hs).
Defined.

(** ** The arithmetic of the matrix power *)

Lemma wrap64_range z : - 2 ^ 63 <= z < 2 ^ 63 → wrap64 z = z.
Proof. intros Hz. unfold wrap64. rewrite Z.mod_small; lia. Qed.

Lemma mmul_exact_fun_matrix ns f h :
  NoDup ns → closed_on ns f →
  mmul_exact (fun_matrix ns f) (fun_matrix ns h)
  = fun_matrix ns (λ u, f u ≫= h).
Proof.
  intros Hnd Hf. unfold mmul_exact.
  assert (length (fun_matrix ns h) = length ns) as ->
    by (unfold fun_matrix; by rewrite length_fmap).
  set (B := fun_matrix ns h). unfold fun_matrix.
  rewrite <- list_fmap_compose. apply list_fmap_ext. intros i u Hu. simpl.
  assert (u ∈ ns) as Hin by (apply list_elem_of_lookup; eauto).
  apply fmap_seq_length. intros j v Hj. subst B.
  rewrite (column_fun_matrix _ _ _ _ Hj), dot_fmap.
  destruct (f u) as [w0|] eqn:Hw0; simpl.
  - rewrite (sum_single _ _ w0); [|done|by eapply Hf|].
    + destruct (decide (Some w0 = Some w0)); [|congruence].
      destruct (decide (h w0 = Some v)); reflexivity.
    + intros w _ Hne.
      destruct (decide (Some w0 = Some w)); [congruence|reflexivity].
  - rewrite sum_zero.
    + destruct (decide (None = Some v)); [congruence|reflexivity].
    + intros w _.
      destruct (decide (None = Some w)); [congruence|reflexivity].
Qed.

Lemma pow_pos_exact_fun_matrix ns f p :
  NoDup ns → closed_on ns f →
  pow_pos_exact (fun_matrix ns f) p
  = fun_matrix ns (ancestor f (Pos.to_nat p)).
Proof.
  intros Hnd Hf. induction p as [p IH|p IH|]; simpl pow_pos_exact.
  - rewrite IH, mmul_exact_fun_matrix by done.
    rewrite mmul_exact_fun_matrix; [|done|].
    + apply fun_matrix_ext. intros u _.
      rewrite Pos2Nat.inj_xI.
      replace (S (2 * Pos.to_nat p))%nat
        with (S (Pos.to_nat p) + Pos.to_nat p)%nat by lia.
      by rewrite ancestor_add.
    + apply (ancestor_closed ns f (S (Pos.to_nat p)) Hf).
  - rewrite IH, mmul_exact_fun_matrix; [|done|by apply ancestor_closed].
    apply fun_matrix_ext. intros u _.
    rewrite Pos2Nat.inj_xO.
    replace (2 * Pos.to_nat p)%nat with (Pos.to_nat p + Pos.to_nat p)%nat
      by lia.
    by rewrite ancestor_add.
  - apply fun_matrix_ext. intros u _. simpl. by destruct (f u).
Qed.

Lemma entry_fun_matrix_bit ns f i j :
  entry (fun_matrix ns f) i j = 0 ∨ entry (fun_matrix ns f) i j = 1.
Proof.
  unfold entry, fun_matrix. rewrite list_lookup_fmap.
  destruct (ns !! i) as [u|]; simpl; [|by left].
  rewrite list_lookup_fmap.
  destruct (ns !! j) as [v|]; simpl; [|by left].
  case_decide; [by right|by left].
Qed.

(** X12: where [**] is the matrix power, its 64-bit arithmetic never wraps
    around on a built graph.  The wrap is the identity on the range of 64-bit
    integers (and only there: [2^63] wraps to [-2^63]); every dot product
    that multiplying two powers of the adjacency matrix forms, computed on
    unbounded integers, is 0 or 1; and the power computed with the wrap is
    the power computed on unbounded integers.  Every value that [find]
    reports, which the loop discards, is 1. *)
Theorem power_without_overflow dm g p :
  get_history_graph dm = OK g →
  (∀ z, - 2 ^ 63 <= z < 2 ^ 63 → wrap64 z = z) ∧
  wrap64 (2 ^ 63) = - 2 ^ 63 ∧
  (∀ q r i j,
     let d := entry (mmul_exact (pow_pos_exact (edge_matrix g) q)
                                (pow_pos_exact (edge_matrix g) r)) i j in
     d = 0 ∨ d = 1) ∧
  sparse_pow spmatrix (edge_matrix g) (Zpos p)
    = OK (pow_pos_exact (edge_matrix g) p) ∧
  ∀ i j w, (i, j, w) ∈ find (pow_pos_exact (edge_matrix g) p) → w = 1.
Proof.
  intros Hg.
  pose proof (built_wf dm g Hg) as Hwf.
  pose proof (built_functional dm g Hg) as Hfun.
  pose proof (wf_nodes _ Hwf) as Hnd.
  pose proof (parent_in_closed g Hwf) as Hcl.
  rewrite edge_matrix_fun_matrix by done.
  split_and!.
  - apply wrap64_range.
  - reflexivity.
  - intros q r i j. rewrite !pow_pos_exact_fun_matrix by done.
    rewrite mmul_exact_fun_matrix by (done || by apply ancestor_closed).
    apply entry_fun_matrix_bit.
  - unfold sparse_pow. f_equal.
    by rewrite pow_pos_fun_matrix, pow_pos_exact_fun_matrix.
  - rewrite pow_pos_exact_fun_matrix by done.
    by intros i j w (_ & _ & _ & _ & _ & ->)%elem_of_find_fun_matrix.
Qed.

Lemma power_without_overflow_witness :
  let g := built_graph scenario_A in
  get_history_graph scenario_A = OK g ∧
  (∀ z, - 2 ^ 63 <= z < 2 ^ 63 → wrap64 z = z) ∧
  wrap64 (2 ^ 63) = - 2 ^ 63 ∧
  (∀ q r i j,
     let d := entry (mmul_exact (pow_pos_exact (edge_matrix g) q)
                                (pow_pos_exact (edge_matrix g) r)) i j in
     d = 0 ∨ d = 1) ∧
  sparse_pow spmatrix (edge_matrix g) 3
    = OK (pow_pos_exact (edge_matrix g) 3) ∧
  ∀ i j w, (i, j, w) ∈ find (pow_pos_exact (edge_matrix g) 3) → w = 1.
Proof.
  intros g.
  assert (get_history_graph scenario_A = OK g) as Hg
    by (apply is_OK_built_graph; vm_compute; reflexivity).
  split; [exact Hg|].
  exact (power_without_overflow scenario_A g 3 Hg).
Defined.

(** ** The element-wise power *)

(** X17: where [networkx.adjacency_matrix] returns a sparse array (networkx
    3.0 and later), [**] is the element-wise power and the degree has no
    effect: on a built graph with nodes, for every positive [degree] that
    fits 64 bits, the call returns the mapping of every segment to its
    parent, the same as for degree 1. *)
Theorem elementwise_power_ignores_degree dm g degree :
  get_history_graph dm = OK g → nodes g ≠ [] →
  0 < degree < 2 ^ 63 →
  ∃ m, child_to_parent_mapping sparray g degree = OK m ∧
    child_to_parent_mapping sparray g 1 = OK m ∧
    ∀ u v, m !! u = Some v ↔ has_edge g u v.
Proof.
  intros Hg Hne [Hdeg _].
  pose proof (built_wf dm g Hg) as Hwf.
  pose proof (built_functional dm g Hg) as Hfun.
  destruct (child_to_parent_mapping_array g Hwf Hfun degree Hne Hdeg)
    as (m & Hm & Hlook).
  destruct (child_to_parent_mapping_array g Hwf Hfun 1 Hne)
    as (m1 & Hm1 & Hlook1); [done|].
  exists m. split_and!; [done| |done].
  rewrite Hm1. f_equal. apply map_eq. intros u.
  destruct (m !! u) as [v|] eqn:Hv.
  - by apply Hlook1, Hlook.
  - destruct (m1 !! u) as [v1|] eqn:Hv1; [|done].
    apply Hlook1, Hlook in Hv1. congruence.
Qed.

Lemma elementwise_power_ignores_degree_witness :
  let g := built_graph scenario_A in
  get_history_graph scenario_A = OK g ∧ nodes g ≠ [] ∧
  0 < 4 < 2 ^ 63 ∧
  ∃ m, child_to_parent_mapping sparray g 4 = OK m ∧
    child_to_parent_mapping sparray g 1 = OK m ∧
    ∀ u v, m !! u = Some v ↔ has_edge g u v.
Proof.
  intros g.
  assert (get_history_graph scenario_A = OK g) as Hg
    by (apply is_OK_built_graph; vm_compute; reflexivity).
  assert (nodes g ≠ []) as Hne by (vm_compute; discriminate).
  assert (0 < 4 < 2 ^ 63) as Hdeg by (split; reflexivity).
  split; [exact Hg|]. split; [exact Hne|]. split; [exact Hdeg|].
  exact (elementwise_power_ignores_degree scenario_A g 4 Hg Hne Hdeg).
Defined.

(** * Properties of the haMSM plugin *)

Lemma driver_get_insert_ne (cfg : gmap string Driver.pyvalue) k v key d :
  k ≠ key → Driver.get (<[k := v]> cfg) key d = Driver.get cfg key d.
Proof. intros Hne. unfold Driver.get. by rewrite lookup_insert_ne. Qed.

Lemma driver_init_master h5 cfg cbs self cbs' :
  Driver.init 1 true h5 cfg cbs = Driver.Done (Some self, cbs') →
  Driver.plugin_config self = cfg ∧
  Driver.ray_address self = Driver.get cfg "ray_address" Driver.PyNone ∧
  Driver.ray_kwargs self =
    Driver.get cfg "ray_kwargs" (Driver.PyDict ∅).
Proof. unfold Driver.init. simpl. by intros [= <- _]. Qed.

(** X13: the keyword arguments for Ray, for a plugin object set up on the
    master process whose option [ray_kwargs] is a dictionary or absent.  The
    option [ray_address], when it is not [None], is passed as [address] and
    overrides an [address] given in [ray_kwargs]; every other key of
    [ray_kwargs] is passed as given, so a [num_cpus] in [ray_kwargs]
    overrides the option [num_cpus]; and [num_cpus] is always passed, as
    [None] when neither gives it.  These are the arguments with which the
    model is built once the featurizer is loaded. *)
Theorem driver_ray_kwargs h5 cfg cbs self cbs' rk :
  Driver.init 1 true h5 cfg cbs = Driver.Done (Some self, cbs') →
  Driver.get cfg "ray_kwargs" (Driver.PyDict ∅) = Driver.PyDict rk →
  ∃ kw, Driver.ray_kwargs_of self = Driver.Done kw ∧
    kw !! "address" =
      (if Driver.is_not_None (Driver.get cfg "ray_address" Driver.PyNone)
       then Some (Driver.get cfg "ray_address" Driver.PyNone)
       else rk !! "address") ∧
    kw !! "num_cpus" =
      Some (default (Driver.get cfg "num_cpus" Driver.PyNone)
                    (rk !! "num_cpus")) ∧
    (∀ k, k ≠ "address" → k ≠ "num_cpus" → kw !! k = rk !! k) ∧
    ∀ (featurizer model : Type)
      (get_object : Driver.pyvalue → Driver.outcome featurizer)
      (build_analyze_model : Driver.build_args → Driver.outcome model)
      (w : Driver.world) f,
      get_object (Driver.get cfg "featurization" Driver.PyNone)
        = Driver.Done f →
      (Driver.construct_hamsm get_object build_analyze_model self w).1
        = build_analyze_model (Driver.build_args_of self kw).
Proof.
  intros (Hcfg & Haddr & Hkw)%driver_init_master Hrk.
  assert (∀ (m : gmap string Driver.pyvalue) v,
            (m ∪ {[ "num_cpus" := v ]}) !! "num_cpus"
            = Some (default v (m !! "num_cpus"))) as Hnum.
  { intros m v. rewrite lookup_union.
    rewrite lookup_singleton_eq. by destruct (m !! "num_cpus"). }
  assert (∀ (m : gmap string Driver.pyvalue) v k, k ≠ "num_cpus" →
            (m ∪ {[ "num_cpus" := v ]}) !! k = m !! k) as Hother.
  { intros m v k Hk. rewrite lookup_union.
    rewrite lookup_singleton_ne by done. by destruct (m !! k). }
  unfold Driver.ray_kwargs_of. rewrite Hkw, Hrk, Haddr, Hcfg. simpl.
  destruct (Driver.is_not_None _) eqn:Hnone; simpl.
  - eexists. split; [done|]. split_and!.
    + rewrite lookup_union, lookup_singleton_eq. by destruct (_ !! _).
    + rewrite lookup_union, lookup_singleton_ne by done.
      rewrite Hnum. by destruct (rk !! "num_cpus").
    + intros k Hk1 Hk2. rewrite lookup_union, lookup_singleton_ne by done.
      rewrite Hother by done. by destruct (rk !! k).
    + intros featurizer model get_object build w f Hf.
      unfold Driver.construct_hamsm, Driver.ray_kwargs_of.
      rewrite Hcfg, Hf, Hkw, Hrk, Haddr. simpl. rewrite Hnone. simpl.
      by destruct (build _).
  - eexists. split; [done|]. split_and!.
    + by apply Hother.
    + apply Hnum.
    + intros k _ Hk. by apply Hother.
    + intros featurizer model get_object build w f Hf.
      unfold Driver.construct_hamsm, Driver.ray_kwargs_of.
      rewrite Hcfg, Hf, Hkw, Hrk, Haddr. simpl. rewrite Hnone.
      by destruct (build _).
Qed.

Lemma driver_init_object h5 cfg cbs :
  Driver.init 1 true h5 cfg cbs =
  Driver.Done (Some (Driver.object_of h5 cfg),
               cbs ++ [Driver.mkCallback "finalize_run" "construct_hamsm"
                         (Driver.get cfg "priority" (Driver.PyInt 2))]).
Proof. reflexivity. Qed.

Lemma driver_ray_kwargs_witness :
  let cfg := Driver.example_config in
  let self := Driver.object_of "west.h5" cfg in
  let rk : gmap string Driver.pyvalue :=
    {[ "address" := Driver.PyStr "10.0.0.1:6379";
       "num_cpus" := Driver.PyInt 4 ]} in
  Driver.get cfg "ray_kwargs" (Driver.PyDict ∅) = Driver.PyDict rk ∧
  ∃ kw, Driver.ray_kwargs_of self = Driver.Done kw ∧
    kw !! "address" = Some (Driver.PyStr "auto") ∧
    kw !! "num_cpus" = Some (Driver.PyInt 4).
Proof.
  intros cfg self rk.
  assert (Driver.get cfg "ray_kwargs" (Driver.PyDict ∅) = Driver.PyDict rk)
    as Hrk by (vm_compute; reflexivity).
  split; [exact Hrk|].
  destruct (driver_ray_kwargs "west.h5" cfg [] self _ rk
              (driver_init_object "west.h5" cfg []) Hrk)
    as (kw & Hkw & Haddr & Hnum & _).
  exists kw. split; [exact Hkw|]. split.
  - rewrite Haddr. vm_compute. reflexivity.
  - rewrite Hnum. vm_compute. reflexivity.
Defined.

(** X14: after [construct_hamsm] the data manager holds the model this
    call built, or none when the call raised: a model stored by an earlier
    call never survives.  Whenever the featurizer was loaded, the backing
    file is closed and the featurizer is stored, also when the call raises
    afterwards. *)
Theorem driver_model_handover (featurizer model : Type)
    (get_object : Driver.pyvalue → Driver.outcome featurizer)
    (build_analyze_model : Driver.build_args → Driver.outcome model)
    (self : Driver.HAMSMDriver) (w : Driver.world) :
  let r := Driver.construct_hamsm get_object build_analyze_model self w in
  Driver.hamsm_model r.2 =
    match r.1 with
    | Driver.Done m => Some m
    | Driver.Raised _ => None
    end ∧
  ∀ f, get_object (Driver.get (Driver.plugin_config self) "featurization"
                              Driver.PyNone) = Driver.Done f →
       Driver.backing_open r.2 = false ∧
       Driver.processCoordinates r.2 = Some f ∧
       Driver.modelWE_processCoordinates r.2 = Some f.
Proof.
  unfold Driver.construct_hamsm. simpl.
  destruct (get_object _) as [f|e]; simpl; [|by split].
  destruct (Driver.ray_kwargs_of self) as [kw|e]; simpl.
  - destruct (build_analyze_model _); simpl; split; try done;
      by intros ? [= <-].
  - split; [done|]. by intros ? [= <-].
Qed.

(** X15: an option the two methods do not read has no effect.  Adding a
    key outside [keys_read] to the configuration, such as [n_cpus] or
    [dim_reduce_method], changes neither the callback that [__init__]
    registers nor any attribute but the stored configuration itself, and
    [construct_hamsm] builds the model with the same arguments and leaves the
    same state. *)
Theorem driver_unread_key k v n_threads is_master h5 cfg cbs :
  k ∉ Driver.keys_read →
  match Driver.init n_threads is_master h5 cfg cbs,
        Driver.init n_threads is_master h5 (<[k := v]> cfg) cbs with
  | Driver.Done (Some self, cbs1), Driver.Done (Some self', cbs2) =>
      cbs1 = cbs2 ∧
      self' = Driver.mkDriver (<[k := v]> cfg)
                (Driver.priority self) (Driver.h5file_paths self)
                (Driver.dimreduce_use_weights self)
                (Driver.dimreduce_var_cutoff self)
                (Driver.cross_validation_groups self)
                (Driver.ray_address self) (Driver.ray_kwargs self) ∧
      ∀ (featurizer model : Type)
        (get_object : Driver.pyvalue → Driver.outcome featurizer)
        (build_analyze_model : Driver.build_args → Driver.outcome model)
        (w : Driver.world),
        Driver.construct_hamsm get_object build_analyze_model self' w =
        Driver.construct_hamsm get_object build_analyze_model self w
  | Driver.Done (None, cbs1), Driver.Done (None, cbs2) => cbs1 = cbs2
  | Driver.Raised e1, Driver.Raised e2 => e1 = e2
  | _, _ => False
  end.
Proof.
  intros Hk. unfold Driver.keys_read in Hk.
  repeat (apply not_elem_of_cons in Hk as [? Hk]).
  unfold Driver.init. destruct (decide (n_threads = 1)); [|done].
  destruct is_master; simpl; [|done].
  rewrite !driver_get_insert_ne by done. split_and!; [done..|].
  intros featurizer model get_object build w.
  unfold Driver.construct_hamsm, Driver.ray_kwargs_of, Driver.build_args_of.
  simpl. by rewrite !driver_get_insert_ne by done.
Qed.

Lemma driver_unread_key_witness :
  ("n_cpus" ∉ Driver.keys_read) ∧ ("dim_reduce_method" ∉ Driver.keys_read) ∧
  Driver.init 1 true "west.h5"
    (<["dim_reduce_method" := Driver.PyStr "pca"]> Driver.example_config) []
  = Driver.Done
      (Some (Driver.mkDriver
               (<["dim_reduce_method" := Driver.PyStr "pca"]>
                  Driver.example_config)
               (Driver.PyInt 2) ["west.h5"] (Driver.PyBool true)
               Driver.PyNone (Driver.PyInt 2) (Driver.PyStr "auto")
               (Driver.ray_kwargs
                  (Driver.object_of "west.h5" Driver.example_config))),
       [Driver.mkCallback "finalize_run" "construct_hamsm" (Driver.PyInt 2)]).
Proof.
  assert ("n_cpus" ∉ Driver.keys_read) as H1
    by (apply (bool_decide_unpack _); vm_compute; reflexivity).
  assert ("dim_reduce_method" ∉ Driver.keys_read) as H2
    by (apply (bool_decide_unpack _); vm_compute; reflexivity).
  split; [exact H1|]. split; [exact H2|].
  pose proof (driver_unread_key "dim_reduce_method" (Driver.PyStr "pca")
                1 true "west.h5" Driver.example_config [] H2) as H.
  rewrite !driver_init_object in H. destruct H as (_ & Hself & _).
  rewrite driver_init_object. rewrite Hself. reflexivity.
Defined.

(** X16: the default [{}] of the option [ray_kwargs] applies only when the
    key is absent.  When the key is present with the value [None] (or a
    boolean or an integer), [construct_hamsm] on the object set up on the
    master process raises [TypeError] once the featurizer is loaded, whatever
    the model builder would do, and the data manager is left without a
    model. *)
Theorem driver_ray_kwargs_not_a_mapping h5 cfg v
    (featurizer model : Type)
    (get_object : Driver.pyvalue → Driver.outcome featurizer)
    (build_analyze_model : Driver.build_args → Driver.outcome model)
    (w : Driver.world) f :
  cfg !! "ray_kwargs" = Some v →
  (v = Driver.PyNone ∨ (∃ b, v = Driver.PyBool b) ∨ ∃ z, v = Driver.PyInt z) →
  get_object (Driver.get cfg "featurization" Driver.PyNone) = Driver.Done f →
  let r := Driver.construct_hamsm get_object build_analyze_model
             (Driver.object_of h5 cfg) w in
  r.1 = Driver.Raised Driver.TypeError ∧ Driver.hamsm_model r.2 = None.
Proof.
  intros Hv Hkind Hf.
  assert (Driver.ray_kwargs_of (Driver.object_of h5 cfg)
          = Driver.Raised Driver.TypeError) as Hkw.
  { unfold Driver.ray_kwargs_of, Driver.object_of. simpl.
    assert (Driver.get cfg "ray_kwargs" (Driver.PyDict ∅) = v) as ->
      by (unfold Driver.get; by rewrite Hv).
    by destruct Hkind as [->|[[b ->]|[z ->]]]. }
  unfold Driver.construct_hamsm.
  change (Driver.plugin_config (Driver.object_of h5 cfg)) with cfg.
  by rewrite Hf, Hkw.
Qed.

Lemma driver_ray_kwargs_not_a_mapping_witness :
  Driver.example_config_None !! "ray_kwargs" = Some Driver.PyNone ∧
  let r := Driver.construct_hamsm (λ v, Driver.Done v)
             (λ _ : Driver.build_args, Driver.Done 0%nat)
             (Driver.object_of "west.h5" Driver.example_config_None)
             (Driver.mkWorld (Some 7%nat) None None true) in
  r.1 = Driver.Raised Driver.TypeError ∧ Driver.hamsm_model r.2 = None.
Proof.
  assert (Driver.example_config_None !! "ray_kwargs" = Some Driver.PyNone)
    as Hv by (vm_compute; reflexivity).
  split; [exact Hv|].
  exact (driver_ray_kwargs_not_a_mapping "west.h5" Driver.example_config_None
           Driver.PyNone Driver.pyvalue nat (λ v, Driver.Done v)
           (λ _, Driver.Done 0%nat)
           (Driver.mkWorld (Some 7%nat) None None true) Driver.PyNone
           Hv (or_introl eq_refl) eq_refl).
Defined.
